(** * CVR: a capacitated single-vehicle routing heuristic (src/CVR.py)

    A shallow embedding of the routing core of [CVR.py] and the properties
    of its specification.  Python's [float] is IEEE 754 binary64, which is
    what Rocq's primitive [float] is: the additions, subtractions, square
    roots and comparisons of the source are the primitive operations of the
    same name.

    Two operations of the source are not IEEE operations.  [x ** 2] calls
    the C library's [pow]: it may differ from the product [x * x], which
    stands for it here, in the last bit, and it raises [OverflowError] where
    the product overflows to infinity.  No property below rests on the value
    of a square, and the properties that promise a result of a function that
    measures distances are stated for stops within range of each other
    ([no_overflow]), where no square overflows.  The builtin [sum] adds
    floats from left to right up to CPython 3.11 and with a compensation of
    the rounding errors from 3.12 on: [plain_sum] and [compensated_sum], and
    the load accounting is stated for any summation. *)

From Stdlib Require Import List ZArith Bool String Permutation Sorted Lia.
From Stdlib Require Import Floats.
Import ListNotations.

Local Open Scope float_scope.

(** ** Data structures *)

(** [class Event]: a located point with a capacity, a type tag
    (["delivery"], ["pickup"] or ["depot"]) and a name. *)
Record Event : Type := mkEvent {
  x : float;
  y : float;
  capacity : float;
  type : string;
  name : string
}.

Definition DEPOT : Event := mkEvent 0 0 0 "depot" "Depot".

(** What a call does: it returns a value, raises an exception, or is cut
    off because the bound on the iterations of a [while] loop was reached. *)
Inductive exn : Type := TypeError.

Inductive outcome (A : Type) : Type :=
| Returns (a : A)
| Raises (e : exn)
| OutOfFuel.

Arguments Returns {A} a.
Arguments Raises {A} e.
Arguments OutOfFuel {A}.

Definition bind {A B : Type} (m : outcome A) (k : A -> outcome B) : outcome B :=
  match m with
  | Returns a => k a
  | Raises e => Raises e
  | OutOfFuel => OutOfFuel
  end.

Notation "'let*' v ':=' m 'in' k" := (bind m (fun v => k))
  (at level 10, v name, m at level 100, k at level 200).

(** ** Distance utilities *)

(** [math.sqrt((a.x - b.x) ** 2 + (a.y - b.y) ** 2)], each square taken as
    the product; see [near] for the stops on which [** 2] does not raise. *)
Definition distance (a b : Event) : float :=
  sqrt ((x a - x b) * (x a - x b) + (y a - y b) * (y a - y b)).

(** [route_length]: [total] runs over the consecutive pairs of the route. *)
Fixpoint route_length_from (total : float) (route : list Event) : float :=
  match route with
  | a :: (b :: _) as rest => route_length_from (total + distance a b) rest
  | _ => total
  end.

Definition route_length (route : list Event) : float :=
  route_length_from 0 route.

(** ** Delivery selection *)

(** The sort key [(d.capacity, distance(DEPOT, d))] and Python's [<] on
    pairs: the first components decide unless they are [==]. *)
Definition sort_key (d : Event) : float * float :=
  (capacity d, distance DEPOT d).

Definition key_lt (a b : float * float) : bool :=
  if fst a =? fst b then snd a <? snd b else fst a <? fst b.

(** [sorted(deliveries, key=...)]: a stable sort that only asks [<] of the
    keys; an element goes after every element it is not less than.  On keys
    that compare with each other (no NaN, see [keys_comparable]) this is the
    order Python's sort gives. *)
Fixpoint sorted_insert (d : Event) (l : list Event) : list Event :=
  match l with
  | [] => [d]
  | e :: l' =>
      if key_lt (sort_key d) (sort_key e) then d :: e :: l'
      else e :: sorted_insert d l'
  end.

Definition sorted (deliveries : list Event) : list Event :=
  fold_left (fun acc d => sorted_insert d acc) deliveries [].

(** The selection loop, with its two variables. *)
Fixpoint select_loop (deliveries_sorted selected : list Event)
    (total_capacity capacity_limit : float) : list Event :=
  match deliveries_sorted with
  | [] => selected
  | d :: rest =>
      if total_capacity + capacity d <=? capacity_limit
      then select_loop rest (selected ++ [d]) (total_capacity + capacity d)
             capacity_limit
      else select_loop rest selected total_capacity capacity_limit
  end.

Definition select_deliveries (deliveries : list Event) (capacity_limit : float)
  : list Event :=
  select_loop (sorted deliveries) [] 0 capacity_limit.

(** ** Route construction *)

(** [min(unvisited, key=...)]: the first least element, with its position.
    The element only replaces the best so far when its key is strictly less. *)
Fixpoint min_scan (key : Event -> float) (best : Event) (best_at at_ : nat)
    (l : list Event) : nat * Event :=
  match l with
  | [] => (best_at, best)
  | d :: l' =>
      if key d <? key best then min_scan key d at_ (S at_) l'
      else min_scan key best best_at (S at_) l'
  end.

Definition min_by (key : Event -> float) (l : list Event) : option (nat * Event) :=
  match l with
  | [] => None
  | d :: l' => Some (min_scan key d 0%nat 1%nat l')
  end.

(** [unvisited.remove(next_event)]: events are compared by identity, and the
    first occurrence of the object [min] returned is where [min] found it. *)
Definition remove_at (i : nat) (l : list Event) : list Event :=
  firstn i l ++ skipn (S i) l.

(** The [while unvisited] loop: every iteration takes one event out of the
    pool, so [n] starts at the size of the pool. *)
Fixpoint nearest_neighbor_loop (n : nat) (route : list Event) (current : Event)
    (unvisited : list Event) : list Event :=
  match n with
  | O => route
  | S n' =>
      match min_by (fun d => distance current d) unvisited with
      | None => route
      | Some (i, next_event) =>
          nearest_neighbor_loop n' (route ++ [next_event]) next_event
            (remove_at i unvisited)
      end
  end.

Definition nearest_neighbor_route (deliveries : list Event) : list Event :=
  nearest_neighbor_loop (List.length deliveries) [DEPOT] DEPOT deliveries.

(** The loop of [insert_pickup_best_position] over [i = 1 .. len(route)-1]:
    [prev] is [route[i-1]] and [rest] starts at [route[i]]. *)
Fixpoint best_insertion (pickup : Event) (i : nat) (prev : Event)
    (rest : list Event) (best_position : option nat) (best_increase : float)
  : option nat :=
  match rest with
  | [] => best_position
  | cur :: rest' =>
      let increase :=
        distance prev pickup + distance pickup cur - distance prev cur in
      if increase <? best_increase
      then best_insertion pickup (S i) cur rest' (Some i) increase
      else best_insertion pickup (S i) cur rest' best_position best_increase
  end.

Definition list_insert (pos : nat) (e : Event) (l : list Event) : list Event :=
  firstn pos l ++ e :: skipn pos l.

(** [route.insert(best_position, pickup)] raises [TypeError] when
    [best_position] is still [None]. *)
Definition insert_pickup_best_position (route : list Event) (pickup : Event)
  : outcome (list Event) :=
  let best_position :=
    match route with
    | [] => None
    | first :: rest => best_insertion pickup 1 first rest None infinity
    end in
  match best_position with
  | None => Raises TypeError
  | Some pos => Returns (list_insert pos pickup route)
  end.

(** ** 2-opt *)

(** [new_route[i:j] = reversed(best_route[i:j])] for [i <= j <= len]. *)
Definition reverse_segment (i j : nat) (l : list Event) : list Event :=
  firstn i l ++ rev (firstn (j - i) (skipn i l)) ++ skipn j l.

(** [range(a, b)]; empty when [b <= a]. *)
Definition range (a b : nat) : list nat := seq a (b - a).

Definition two_opt_state : Type := (list Event * float * bool)%type.

(** The body of the inner loop at the pair [(i, j)]. *)
Definition two_opt_body (i j : nat) (st : two_opt_state) : two_opt_state :=
  let '(best_route, best_length, improved) := st in
  if (j - i =? 1)%nat then st
  else
    let new_route := reverse_segment i j best_route in
    let new_length := route_length new_route in
    if new_length <? best_length then (new_route, new_length, true) else st.

(** The inner [for j] loop; its range is taken from the current best route. *)
Definition two_opt_inner (i : nat) (st : two_opt_state) : two_opt_state :=
  fold_left (fun st j => two_opt_body i j st)
    (range (i + 1) (List.length (fst (fst st)) - 1)) st.

(** One pass of the [while] loop: [improved] is reset and both [for] loops
    run to their end. *)
Definition two_opt_pass (best_route : list Event) (best_length : float)
  : two_opt_state :=
  fold_left (fun st i => two_opt_inner i st)
    (range 1 (List.length best_route - 2)) (best_route, best_length, false).

(** The [while improved] loop; [fuel] bounds the number of passes. *)
Fixpoint two_opt_loop (fuel : nat) (best_route : list Event)
    (best_length : float) : outcome (list Event) :=
  match fuel with
  | O => OutOfFuel
  | S fuel' =>
      let '(best_route', best_length', improved) :=
        two_opt_pass best_route best_length in
      if improved then two_opt_loop fuel' best_route' best_length'
      else Returns best_route'
  end.

Definition two_opt (fuel : nat) (route : list Event) : outcome (list Event) :=
  two_opt_loop fuel route (route_length route).

Definition build_route (fuel : nat) (deliveries : list Event) (pickup : Event)
  : outcome (list Event) :=
  let route := nearest_neighbor_route deliveries in
  let* route := insert_pickup_best_position route pickup in
  let route := route ++ [DEPOT] in
  two_opt fuel route.

(** ** Capacity feasibility check *)

Definition is_type (e : Event) (t : string) : bool := String.eqb (type e) t.

(** [sum(e.capacity for e in route if e.type == "delivery")], added from
    left to right as CPython up to 3.11 does; [initial_load] below takes the
    summation of the interpreter as a parameter. *)
Definition total_delivery_load (route : list Event) : float :=
  fold_left (fun s e => s + capacity e)
    (filter (fun e => is_type e "delivery") route) 0.

(** The load after arriving at [e]. *)
Definition load_step (current_load : float) (e : Event) : float :=
  if is_type e "delivery" then current_load - capacity e
  else if is_type e "pickup" then current_load + capacity e
  else current_load.

Fixpoint feasible_walk (route : list Event) (current_load vehicle_capacity : float)
  : bool :=
  match route with
  | [] => true
  | e :: rest =>
      let current_load := load_step current_load e in
      if vehicle_capacity <? current_load then false
      else feasible_walk rest current_load vehicle_capacity
  end.

Definition is_capacity_feasible (route : list Event) (vehicle_capacity : float)
  : bool :=
  let current_load := total_delivery_load route in
  if vehicle_capacity <? current_load then false
  else feasible_walk route current_load vehicle_capacity.

(** ** Main solver *)

(** The dictionary [solve] returns. *)
Record Solution : Type := mkSolution {
  sol_route : list Event;
  sol_num_deliveries : Z;
  sol_route_length : float;
  sol_pickup_used : Event
}.

(** Python's [>] on the pairs [(num_deliveries, -length)]. *)
Definition score_gt (a b : Z * float) : bool :=
  if (fst a =? fst b)%Z then snd b <? snd a else (fst b <? fst a)%Z.

Fixpoint solve_loop (fuel : nat) (deliveries pickups : list Event)
    (vehicle_capacity : float) (best_solution : option Solution)
    (best_score : Z * float) : outcome (option Solution) :=
  match pickups with
  | [] => Returns best_solution
  | pickup :: pickups' =>
      let continue_ := solve_loop fuel deliveries pickups' vehicle_capacity in
      let capacity_for_deliveries := vehicle_capacity in
      if capacity_for_deliveries <? 0 then continue_ best_solution best_score
      else
        let selected_deliveries :=
          select_deliveries deliveries capacity_for_deliveries in
        let* route := build_route fuel selected_deliveries pickup in
        if negb (is_capacity_feasible route vehicle_capacity)
        then continue_ best_solution best_score
        else
          let num_deliveries := Z.of_nat (List.length selected_deliveries) in
          let length := route_length route in
          let score := (num_deliveries, - length) in
          if score_gt score best_score
          then continue_ (Some (mkSolution route num_deliveries length pickup))
                 score
          else continue_ best_solution best_score
  end.

Definition solve (fuel : nat) (deliveries pickups : list Event)
    (vehicle_capacity : float) : outcome (option Solution) :=
  solve_loop fuel deliveries pickups vehicle_capacity None ((-1)%Z, infinity).

(** ** The example of the source's [__main__] block *)

Module Demo.
Definition deliveries : list Event :=
  [ mkEvent 2 3 2 "delivery" "D1"; mkEvent 5 4 1 "delivery" "D2";
    mkEvent 1 7 3 "delivery" "D3"; mkEvent 6 1 2 "delivery" "D4";
    mkEvent 8 9 4 "delivery" "D5" ].
Definition pickups : list Event :=
  [ mkEvent 4 6 4 "pickup" "P1"; mkEvent 7 2 3 "pickup" "P2";
    mkEvent 3 8 1 "pickup" "P3" ].
Definition vehicle_capacity : float := 8.
End Demo.

(** ** Definitions the properties are stated with *)

(** A float that is not a NaN: it compares with every other such float. *)
Definition comparable (a : float) : Prop := is_nan a = false.

(** The sort key of a delivery is made of numbers. *)
Definition keys_comparable (d : Event) : Prop :=
  comparable (capacity d) /\ comparable (distance DEPOT d).

(** Ascending order of the sort keys, as the specification words it:
    smaller capacity first, nearer to the depot on equal capacities. *)
Definition lex_le (a b : float * float) : bool :=
  (fst a <? fst b) || ((fst a =? fst b) && (snd a <=? snd b)).

Definition key_ascending (d e : Event) : Prop :=
  lex_le (sort_key d) (sort_key e) = true.

(** Greedy acceptance in the given order: a stop is taken whenever the
    running sum with it stays within the limit, and the walk goes on after a
    rejected stop. *)
Fixpoint greedy_accept (stops : list Event) (running_sum limit : float)
  : list Event :=
  match stops with
  | [] => []
  | d :: rest =>
      if running_sum + capacity d <=? limit
      then d :: greedy_accept rest (running_sum + capacity d) limit
      else greedy_accept rest running_sum limit
  end.

(** The sum of the capacities of a list of stops, added up in list order. *)
Definition sum_capacity (stops : list Event) : float :=
  fold_left (fun s d => s + capacity d) stops 0.

(** Two stops are within range of each other when their coordinates differ
    by at most 2^500: the squares of the differences stay far below the
    largest float, and [distance] is computed without [OverflowError]. *)
Definition coordinate_span : float := 0x1p500.

Definition near (a b : Event) : Prop :=
  (abs (x a - x b) <=? coordinate_span) = true /\
  (abs (y a - y b) <=? coordinate_span) = true.

(** No distance between two of the stops overflows. *)
Definition no_overflow (stops : list Event) : Prop :=
  forall a b, In a stops -> In b stops -> near a b.

(** The builtin [sum] of floats, from the start value [0]: up to CPython
    3.11 the items are added from left to right. *)
Definition plain_sum (items : list float) : float :=
  fold_left add items 0.

(** From CPython 3.12 on [sum] carries the rounding errors of the additions
    in a compensation [c] (Neumaier's algorithm) and adds it at the end, when
    it is finite and not zero.  The first item is added to the start value
    as it is. *)
Fixpoint compensated_loop (f_result c : float) (items : list float) : float :=
  match items with
  | [] =>
      if negb (c =? 0) && (abs c <? infinity) then f_result + c else f_result
  | item :: rest =>
      let t := f_result + item in
      let c :=
        if abs item <=? abs f_result then c + ((f_result - t) + item)
        else c + ((item - t) + f_result) in
      compensated_loop t c rest
  end.

Definition compensated_sum (items : list float) : float :=
  match items with
  | [] => 0
  | first :: rest => compensated_loop (0 + first) 0 rest
  end.

(** [is_capacity_feasible] with the builtin [sum] of the interpreter at
    hand; with [plain_sum] it is [is_capacity_feasible] above. *)
Definition initial_load (builtin_sum : list float -> float)
    (route : list Event) : float :=
  builtin_sum (map capacity (filter (fun e => is_type e "delivery") route)).

Definition is_capacity_feasible_with (builtin_sum : list float -> float)
    (route : list Event) (vehicle_capacity : float) : bool :=
  let current_load := initial_load builtin_sum route in
  if vehicle_capacity <? current_load then false
  else feasible_walk route current_load vehicle_capacity.

(** The load on board after the first [k] stops of the route, from the
    load [initial] at the start. *)
Definition load_after (initial : float) (route : list Event) (k : nat)
  : float :=
  fold_left load_step (firstn k route) initial.

(** Three deliveries on which the two summations part: 0.1 + 0.2 + 0.3. *)
Definition tenths : list Event :=
  [ mkEvent 1 0 0x1.999999999999ap-4 "delivery" "D1";
    mkEvent 2 0 0x1.999999999999ap-3 "delivery" "D2";
    mkEvent 3 0 0x1.3333333333333p-2 "delivery" "D3" ].

(** The current best route of a state of the scan. *)
Definition route_of (st : two_opt_state) : list Event := fst (fst st).

(** The pairs [(i, j)] of the scan at a given [i]. *)
Definition row (n i : nat) : list (nat * nat) :=
  map (pair i) (filter (fun j => negb (j - i =? 1)%nat) (range (i + 1) (n - 1))).

(** The index pairs [(i, j)] of one scan, in the order of the scan:
    [1 <= i < j <= len - 2], adjacent pairs left out. *)
Definition scan_pairs (n : nat) : list (nat * nat) :=
  flat_map
    (fun i => map (pair i)
                (filter (fun j => negb (j - i =? 1)%nat) (range (i + 1) (n - 1))))
    (range 1 (n - 2)).

(** The 2-opt of the specification: the first reversal of the scan that
    strictly shortens the route becomes the current best, and the scan
    restarts from its first pair. *)
Fixpoint first_improvement (best_route : list Event) (best_length : float)
    (pairs : list (nat * nat)) : option (list Event) :=
  match pairs with
  | [] => None
  | (i, j) :: pairs' =>
      let new_route := reverse_segment i j best_route in
      if route_length new_route <? best_length then Some new_route
      else first_improvement best_route best_length pairs'
  end.

Fixpoint restart_loop (fuel : nat) (best_route : list Event)
    (best_length : float) : outcome (list Event) :=
  match fuel with
  | O => OutOfFuel
  | S fuel' =>
      match first_improvement best_route best_length
              (scan_pairs (List.length best_route)) with
      | None => Returns best_route
      | Some new_route => restart_loop fuel' new_route (route_length new_route)
      end
  end.

Definition two_opt_restart (fuel : nat) (route : list Event)
  : outcome (list Event) :=
  restart_loop fuel route (route_length route).

(** The 2-opt that goes on with the pass: a reversal that strictly shortens
    the current best replaces it, and the scan continues with the next pair
    on the new best; passes are repeated until one of them replaces nothing. *)
Definition replace_if_shorter (st : two_opt_state) (p : nat * nat)
  : two_opt_state :=
  let '(best_route, best_length, improved) := st in
  let new_route := reverse_segment (fst p) (snd p) best_route in
  let new_length := route_length new_route in
  if new_length <? best_length then (new_route, new_length, true) else st.

Definition continue_pass (best_route : list Event) (best_length : float)
  : two_opt_state :=
  fold_left replace_if_shorter (scan_pairs (List.length best_route))
    (best_route, best_length, false).

Fixpoint continue_loop (fuel : nat) (best_route : list Event)
    (best_length : float) : outcome (list Event) :=
  match fuel with
  | O => OutOfFuel
  | S fuel' =>
      let '(best_route', best_length', improved) :=
        continue_pass best_route best_length in
      if improved then continue_loop fuel' best_route' best_length'
      else Returns best_route'
  end.

Definition two_opt_continue (fuel : nat) (route : list Event)
  : outcome (list Event) :=
  continue_loop fuel route (route_length route).

(** A route on which the two disciplines part: stops on a line through the
    depot, at -3, -1, 2, 5 and 6, visited in the order 2, 5, -1, 6, -3. *)
Module Line.
Definition A : Event := mkEvent (-3) 0 1 "delivery" "A".
Definition B : Event := mkEvent (-1) 0 1 "delivery" "B".
Definition C : Event := mkEvent 2 0 1 "delivery" "C".
Definition D : Event := mkEvent 5 0 1 "delivery" "D".
Definition E : Event := mkEvent 6 0 1 "delivery" "E".
Definition route : list Event := [DEPOT; C; D; B; E; A; DEPOT].
End Line.

(** What holds of the state of a pass that started from [route], of length
    [len]: the current best is a reordering of [route], [best_length] is its
    length, and it is strictly shorter than [len] once a reversal was kept. *)
Definition pass_inv (route : list Event) (len : float) (st : two_opt_state)
  : Prop :=
  let '(best_route, best_length, improved) := st in
  Permutation best_route route /\
  best_length = route_length best_route /\
  (if improved then (best_length <? len) = true
   else best_route = route /\ best_length = len).

(** A route that starts at [a], ends at [z] and has [n] stops in between. *)
Definition closed_between (a z : Event) (n : nat) (route : list Event) : Prop :=
  exists stops, route = a :: stops ++ [z] /\ List.length stops = n.

(** Between any two stops of the tour the detour through the pickup has a
    finite cost: no coordinate is so large that a distance overflows. *)
Definition finite_insertion (deliveries : list Event) (pickup : Event) : Prop :=
  forall a b, In a (DEPOT :: deliveries) -> In b deliveries ->
    (distance a pickup + distance pickup b - distance a b <? infinity) = true.

(** What a finished run leaves: a reordering of the route it started from,
    not longer than it, that a further pass does not change. *)
Definition run_result (route best_route r : list Event) : Prop :=
  Permutation r route /\
  (r = best_route \/
   (route_length r <? route_length best_route) = true) /\
  continue_pass r (route_length r) = (r, route_length r, false).

(** What the body of the loop of [solve] makes of one pickup: nothing when
    the budget is negative or the route fails validation, else the solution
    built for it. *)
Definition candidate (fuel : nat) (deliveries : list Event)
    (vehicle_capacity : float) (pickup : Event) : outcome (option Solution) :=
  if vehicle_capacity <? 0 then Returns None
  else
    let selected_deliveries := select_deliveries deliveries vehicle_capacity in
    let* route := build_route fuel selected_deliveries pickup in
    if is_capacity_feasible route vehicle_capacity
    then Returns (Some (mkSolution route
                          (Z.of_nat (List.length selected_deliveries))
                          (route_length route) pickup))
    else Returns None.

(** The score of a solution: (number of deliveries served, negative route
    length). *)
Definition score (s : Solution) : Z * float :=
  (sol_num_deliveries s, - sol_route_length s).

(** What the loop of [solve] holds after the pickups [seen]: no solution
    when none of them passed validation, else the solution of the pickup at
    some position [k], which no solution of [seen] beats and which beats
    every solution of an earlier pickup. *)
Definition best_of (fuel : nat) (deliveries : list Event)
    (vehicle_capacity : float) (seen : list Event)
    (best_solution : option Solution) (best_score : Z * float) : Prop :=
  match best_solution with
  | None =>
      best_score = ((-1)%Z, infinity) /\
      forall p, In p seen ->
           candidate fuel deliveries vehicle_capacity p = Returns None
  | Some best =>
      best_score = score best /\
      exists k pickup,
        nth_error seen k = Some pickup /\
        candidate fuel deliveries vehicle_capacity pickup
          = Returns (Some best) /\
        forall j p s,
          nth_error seen j = Some p ->
          candidate fuel deliveries vehicle_capacity p = Returns (Some s) ->
          score_gt (score s) (score best) = false /\
          ((j < k)%nat -> score_gt (score best) (score s) = true)
  end.

(** The solution [solve] returns on the example of the source. *)
Definition demo_route : list Event :=
  [ DEPOT; mkEvent 2 3 2 "delivery" "D1"; mkEvent 6 1 2 "delivery" "D4";
    mkEvent 5 4 1 "delivery" "D2"; mkEvent 4 6 4 "pickup" "P1";
    mkEvent 1 7 3 "delivery" "D3"; DEPOT ].

Definition demo_solution : Solution :=
  mkSolution demo_route 4 (route_length demo_route)
    (mkEvent 4 6 4 "pickup" "P1").

(** All the lists of length [n] over the stops of [pool]; every route a
    2-opt run goes through is one of them. *)
Fixpoint lists_over (pool : list Event) (n : nat) : list (list Event) :=
  match n with
  | O => [[]]
  | S n' => flat_map (fun e => map (cons e) (lists_over pool n')) pool
  end.

(** How many of them are strictly shorter than [len]. *)
Definition shorter_routes (pool : list Event) (n : nat) (len : float) : nat :=
  List.length (filter (fun r => route_length r <? len) (lists_over pool n)).

(** ** Definitions the further properties are stated with *)

(** The stops of a nearest-neighbour tour from [current]: no stop still to
    come is strictly nearer to the current position than the next one. *)
Fixpoint nearest_chain (current : Event) (stops : list Event) : Prop :=
  match stops with
  | [] => True
  | next :: rest =>
      (forall e, In e rest ->
         (distance current e <? distance current next) = false) /\
      nearest_chain next rest
  end.

(** The extra distance of the pickup between [route[i-1]] and [route[i]]. *)
Definition insertion_cost (pickup : Event) (route : list Event) (i : nat)
  : float :=
  distance (nth (i - 1) route DEPOT) pickup
  + distance pickup (nth i route DEPOT)
  - distance (nth (i - 1) route DEPOT) (nth i route DEPOT).

(** What the loop of [insert_pickup_best_position] holds after the
    positions [1 .. m]. *)
Definition insertion_inv (pickup : Event) (route : list Event) (m : nat)
    (best_position : option nat) (best_increase : float) : Prop :=
  match best_position with
  | None =>
      best_increase = infinity /\
      forall i, (1 <= i <= m)%nat ->
           (insertion_cost pickup route i <? infinity) = false
  | Some q =>
      (1 <= q <= m)%nat /\
      best_increase = insertion_cost pickup route q /\
      (insertion_cost pickup route q <? infinity) = true /\
      forall i, (1 <= i <= m)%nat ->
           (insertion_cost pickup route i <? insertion_cost pickup route q)
           = false
  end.

(** A stop that changes the load: a delivery or a pickup. *)
Definition moves_load (e : Event) : bool :=
  String.eqb (type e) "delivery" || String.eqb (type e) "pickup".

(** [l] is [l'] with some of its elements left out, the order kept. *)
Inductive subsequence : list Event -> list Event -> Prop :=
| subsequence_nil : subsequence [] []
| subsequence_take e l l' : subsequence l l' -> subsequence (e :: l) (e :: l')
| subsequence_skip e l l' : subsequence l l' -> subsequence l (e :: l').

(** ** The order of binary64 comparisons

    [<?], [<=?] and [=?] are the IEEE comparisons: a NaN compares false with
    everything.  The facts below are read off their specification over
    [spec_float]. *)

Module FloatOrder.

Ltac sf_cases :=
  repeat match goal with
         | f : spec_float |- _ => destruct f as [[|]|[|]| |[|] ? ?]
         end.

Ltac sf_solve :=
  cbn in *; try congruence;
  repeat match goal with
         | |- context [Z.compare ?a ?b] =>
             destruct (Z.compare_spec a b); cbn in *; try congruence; try lia
         | H : context [Z.compare ?a ?b] |- _ =>
             destruct (Z.compare_spec a b); cbn in *; try congruence; try lia
         | |- context [Pos.compare_cont Eq ?a ?b] =>
             change (Pos.compare_cont Eq a b) with (Pos.compare a b);
             destruct (Pos.compare_spec a b); cbn in *; try congruence; try lia
         | H : context [Pos.compare_cont Eq ?a ?b] |- _ =>
             change (Pos.compare_cont Eq a b) with (Pos.compare a b) in H;
             destruct (Pos.compare_spec a b); cbn in *; try congruence; try lia
         end.

Lemma SFltb_irrefl (a : spec_float) : SFltb a a = false.
Proof. unfold SFltb, SFcompare. sf_cases; sf_solve. Qed.

Lemma SFltb_trans (a b c : spec_float) :
  SFltb a b = true -> SFltb b c = true -> SFltb a c = true.
Proof. unfold SFltb, SFcompare. sf_cases; intros; sf_solve. Qed.

Lemma SFltb_SFleb (a b : spec_float) : SFltb a b = true -> SFleb a b = true.
Proof. unfold SFltb, SFleb. destruct (SFcompare a b) as [[| |]|]; congruence. Qed.

Lemma SFleb_trans (a b c : spec_float) :
  SFleb a b = true -> SFleb b c = true -> SFleb a c = true.
Proof. unfold SFleb, SFcompare. sf_cases; intros; sf_solve. Qed.

Lemma SFltb_SFleb_trans (a b c : spec_float) :
  SFltb a b = true -> SFleb b c = true -> SFltb a c = true.
Proof. unfold SFltb, SFleb, SFcompare. sf_cases; intros; sf_solve. Qed.

Lemma SFleb_SFltb_trans (a b c : spec_float) :
  SFleb a b = true -> SFltb b c = true -> SFltb a c = true.
Proof. unfold SFltb, SFleb, SFcompare. sf_cases; intros; sf_solve. Qed.

Lemma SFleb_not_SFltb (a b : spec_float) : SFleb a b = true -> SFltb b a = false.
Proof. unfold SFltb, SFleb, SFcompare. sf_cases; intros; sf_solve. Qed.

Lemma SFltb_total (a b : spec_float) :
  SFeqb a a = true -> SFeqb b b = true -> SFltb a b = false -> SFleb b a = true.
Proof. unfold SFeqb, SFltb, SFleb, SFcompare. sf_cases; intros; sf_solve. Qed.

Lemma SFeqb_SFleb (a b : spec_float) :
  SFeqb a b = SFleb a b && SFleb b a.
Proof. unfold SFeqb, SFleb, SFcompare. sf_cases; sf_solve. Qed.

Lemma SFeqb_opp (a : spec_float) : SFeqb (SFopp a) (SFopp a) = SFeqb a a.
Proof. unfold SFeqb, SFcompare. sf_cases; sf_solve. Qed.

Lemma SFltb_opp (a b : spec_float) : SFltb (SFopp a) (SFopp b) = SFltb b a.
Proof. unfold SFltb, SFcompare. sf_cases; sf_solve. Qed.

Lemma SFeqb_sym (a b : spec_float) : SFeqb a b = SFeqb b a.
Proof. unfold SFeqb, SFcompare. sf_cases; sf_solve. Qed.

Lemma SFleb_split (a b : spec_float) : SFleb a b = SFltb a b || SFeqb a b.
Proof.
  unfold SFleb, SFltb, SFeqb. destruct (SFcompare a b) as [[| |]|]; reflexivity.
Qed.

Lemma SFadd_zero_l (a : spec_float) :
  SFltb (S754_zero false) a = true -> SF64add (S754_zero false) a = a.
Proof. unfold SFltb, SFcompare. destruct a as [[|]|[|]| |[|] ? ?]; cbn; congruence. Qed.

(** The same facts on primitive floats. *)

Lemma ltb_irrefl (a : float) : (a <? a) = false.
Proof. rewrite ltb_spec. apply SFltb_irrefl. Qed.

Lemma ltb_trans (a b c : float) :
  (a <? b) = true -> (b <? c) = true -> (a <? c) = true.
Proof. rewrite !ltb_spec. apply SFltb_trans. Qed.

Lemma ltb_leb (a b : float) : (a <? b) = true -> (a <=? b) = true.
Proof. rewrite ltb_spec, leb_spec. apply SFltb_SFleb. Qed.

Lemma leb_trans (a b c : float) :
  (a <=? b) = true -> (b <=? c) = true -> (a <=? c) = true.
Proof. rewrite !leb_spec. apply SFleb_trans. Qed.

Lemma ltb_leb_trans (a b c : float) :
  (a <? b) = true -> (b <=? c) = true -> (a <? c) = true.
Proof. rewrite !ltb_spec, leb_spec. apply SFltb_SFleb_trans. Qed.

Lemma leb_ltb_trans (a b c : float) :
  (a <=? b) = true -> (b <? c) = true -> (a <? c) = true.
Proof. rewrite !ltb_spec, leb_spec. apply SFleb_SFltb_trans. Qed.

Lemma leb_not_ltb (a b : float) : (a <=? b) = true -> (b <? a) = false.
Proof. rewrite ltb_spec, leb_spec. apply SFleb_not_SFltb. Qed.

Lemma ltb_asym (a b : float) : (a <? b) = true -> (b <? a) = false.
Proof. intros H. apply leb_not_ltb, ltb_leb, H. Qed.

Lemma comparable_eqb (a : float) : comparable a <-> (a =? a) = true.
Proof.
  unfold comparable, is_nan. destruct (a =? a); cbn; split; congruence.
Qed.

Lemma ltb_total (a b : float) :
  comparable a -> comparable b -> (a <? b) = false -> (b <=? a) = true.
Proof.
  rewrite !comparable_eqb, !eqb_spec, ltb_spec, leb_spec. apply SFltb_total.
Qed.

Lemma leb_refl (a : float) : comparable a -> (a <=? a) = true.
Proof.
  intros Ha. apply ltb_total; auto. apply ltb_irrefl.
Qed.

Lemma eqb_leb (a b : float) : (a =? b) = (a <=? b) && (b <=? a).
Proof. rewrite eqb_spec, !leb_spec. apply SFeqb_SFleb. Qed.

Lemma comparable_opp (a : float) : comparable a -> comparable (- a).
Proof.
  rewrite !comparable_eqb, !eqb_spec, opp_spec, SFeqb_opp. auto.
Qed.

Lemma ltb_opp (a b : float) : (- a <? - b) = (b <? a).
Proof. rewrite !ltb_spec, !opp_spec. apply SFltb_opp. Qed.

Lemma eqb_sym (a b : float) : (a =? b) = (b =? a).
Proof. rewrite !eqb_spec. apply SFeqb_sym. Qed.

Lemma leb_split (a b : float) : (a <=? b) = (a <? b) || (a =? b).
Proof. rewrite leb_spec, ltb_spec, eqb_spec. apply SFleb_split. Qed.



(** Adding a positive float to [0] gives it back. *)
Lemma add_zero_l (c : float) : (0 <? c) = true -> 0 + c = c.
Proof.
  intros H. apply Prim2SF_inj. rewrite add_spec. rewrite ltb_spec in H.
  change (Prim2SF 0) with (S754_zero false) in *. now apply SFadd_zero_l.
Qed.

End FloatOrder.

Import FloatOrder.

(** ** Stops within range *)

Lemma no_overflow_checked (stops : list Event) :
  Forall (fun a => Forall (near a) stops) stops -> no_overflow stops.
Proof.
  intros H a b Ha Hb. rewrite Forall_forall in H.
  specialize (H a Ha). rewrite Forall_forall in H. now apply H.
Qed.

(** ** Delivery selection *)

Section Selection.

Lemma lex_le_trans (a b c : float * float) :
  lex_le a b = true -> lex_le b c = true -> lex_le a c = true.
Proof.
  destruct a as [a1 a2], b as [b1 b2], c as [c1 c2]. unfold lex_le; cbn.
  rewrite !orb_true_iff, !andb_true_iff, !eqb_leb, !andb_true_iff.
  intros [H | [[H1 H1'] H2]] [K | [[K1 K1'] K2]].
  - left. eapply ltb_trans; eauto.
  - left. eapply ltb_leb_trans; eauto.
  - left. eapply leb_ltb_trans; eauto.
  - right. repeat split; eapply leb_trans; eauto.
Qed.

Lemma key_lt_lex_le (a b : float * float) :
  key_lt a b = true -> lex_le a b = true.
Proof.
  destruct a as [a1 a2], b as [b1 b2]. unfold key_lt, lex_le; cbn.
  destruct (a1 =? b1); intros H.
  - rewrite (ltb_leb _ _ H). apply orb_true_r.
  - now rewrite H.
Qed.

Lemma key_lt_false_lex_le (a b : float * float) :
  comparable (fst a) -> comparable (snd a) ->
  comparable (fst b) -> comparable (snd b) ->
  key_lt a b = false -> lex_le b a = true.
Proof.
  destruct a as [a1 a2], b as [b1 b2]. unfold key_lt, lex_le; cbn.
  intros Ha1 Ha2 Hb1 Hb2. rewrite (eqb_sym b1 a1).
  destruct (a1 =? b1) eqn:E; intros H.
  - rewrite (ltb_total _ _ Ha2 Hb2 H). apply orb_true_r.
  - pose proof (ltb_total _ _ Ha1 Hb1 H) as L.
    rewrite leb_split, (eqb_sym b1 a1), E, orb_false_r in L. now rewrite L.
Qed.

Lemma sorted_insert_perm (d : Event) (l : list Event) :
  Permutation (sorted_insert d l) (d :: l).
Proof.
  induction l as [|e l IH]; cbn; [reflexivity|].
  destruct (key_lt (sort_key d) (sort_key e)); [reflexivity|].
  rewrite IH. apply perm_swap.
Qed.

Lemma sorted_fold_perm (l acc : list Event) :
  Permutation (fold_left (fun acc d => sorted_insert d acc) l acc) (l ++ acc).
Proof.
  revert acc. induction l as [|d l IH]; intros acc; cbn; [reflexivity|].
  rewrite IH, sorted_insert_perm. symmetry. apply Permutation_middle.
Qed.

Lemma sorted_perm (deliveries : list Event) :
  Permutation (sorted deliveries) deliveries.
Proof.
  unfold sorted. rewrite sorted_fold_perm. now rewrite app_nil_r.
Qed.

Lemma sorted_insert_ascending (d : Event) (l : list Event) :
  keys_comparable d -> Forall keys_comparable l ->
  StronglySorted key_ascending l ->
  StronglySorted key_ascending (sorted_insert d l).
Proof.
  intros Hd Hl Hs. induction Hs as [|e l Hs IH He]; cbn.
  - repeat constructor.
  - inversion Hl as [|? ? Hce Hcl]; subst.
    destruct (key_lt (sort_key d) (sort_key e)) eqn:E.
    + constructor; [now constructor|]. apply key_lt_lex_le in E.
      constructor; [exact E|].
      eapply Forall_impl; [|exact He]. intros f Hf.
      eapply lex_le_trans; eauto.
    + constructor; [now apply IH|].
      eapply Permutation_Forall; [symmetry; apply sorted_insert_perm|].
      constructor; [|exact He].
      destruct Hd, Hce. now apply key_lt_false_lex_le.
Qed.

Lemma sorted_fold_ascending (l acc : list Event) :
  Forall keys_comparable l -> Forall keys_comparable acc ->
  StronglySorted key_ascending acc ->
  StronglySorted key_ascending
    (fold_left (fun acc d => sorted_insert d acc) l acc).
Proof.
  revert acc. induction l as [|d l IH]; intros acc Hl Hacc Hs; cbn; [exact Hs|].
  inversion Hl; subst. apply IH; auto.
  - eapply Permutation_Forall; [symmetry; apply sorted_insert_perm|].
    now constructor.
  - now apply sorted_insert_ascending.
Qed.

Lemma select_loop_greedy (s selected : list Event) (total limit : float) :
  select_loop s selected total limit = selected ++ greedy_accept s total limit.
Proof.
  revert selected total. induction s as [|d s IH]; intros selected total; cbn.
  - now rewrite app_nil_r.
  - destruct (total + capacity d <=? limit); rewrite IH; [|reflexivity].
    now rewrite <- app_assoc.
Qed.

Lemma greedy_sum_from (s : list Event) (total limit : float) :
  (total <=? limit) = true ->
  (fold_left (fun t d => t + capacity d) (greedy_accept s total limit) total
     <=? limit) = true.
Proof.
  revert total. induction s as [|d s IH]; intros total H; cbn; [exact H|].
  destruct (total + capacity d <=? limit) eqn:E; cbn; auto.
Qed.

Lemma greedy_sum (s : list Event) (limit : float) :
  (0 <=? limit) = true \/ greedy_accept s 0 limit <> [] ->
  (sum_capacity (greedy_accept s 0 limit) <=? limit) = true.
Proof.
  unfold sum_capacity. intros [H | H]; [now apply greedy_sum_from|].
  generalize dependent (0 : float). induction s as [|d s IH]; intros total H; cbn in *.
  - congruence.
  - destruct (total + capacity d <=? limit) eqn:E; cbn; [|auto].
    now apply greedy_sum_from.
Qed.

Lemma greedy_positive_zero (s : list Event) :
  Forall (fun d => (0 <? capacity d) = true) s -> greedy_accept s 0 0 = [].
Proof.
  induction 1 as [|d s Hd _ IH]; cbn; [reflexivity|].
  rewrite (add_zero_l _ Hd).
  destruct (capacity d <=? 0) eqn:E; [|exact IH].
  apply leb_not_ltb in E. congruence.
Qed.

End Selection.

(** C9, as the claim states it, fails: with a capacity limit of zero a
    delivery of capacity zero is selected. *)
Lemma select_deliveries_zero_limit_selects :
  select_deliveries [mkEvent 1 1 0 "delivery" "D"] 0
    = [mkEvent 1 1 0 "delivery" "D"] /\
  ~ (forall deliveries : list Event, select_deliveries deliveries 0 = []).
Proof.
  split; [reflexivity|].
  intros H. specialize (H [mkEvent 1 1 0 "delivery" "D"]).
  vm_compute in H. discriminate H.
Qed.

(** C9 (amended): the Delivery Selector returns an empty selection on an
    empty input list, whatever the limit, and with a capacity limit of zero
    whenever every delivery has a strictly positive capacity and is within
    range of the depot. *)
Theorem select_deliveries_empty_selection :
  (forall capacity_limit : float, select_deliveries [] capacity_limit = []) /\
  (forall deliveries : list Event,
      Forall (near DEPOT) deliveries ->
      Forall (fun d => (0 <? capacity d) = true) deliveries ->
      select_deliveries deliveries 0 = []).
Proof.
  split; [reflexivity|]. intros deliveries _ H.
  unfold select_deliveries. rewrite select_loop_greedy. cbn.
  apply greedy_positive_zero.
  eapply Permutation_Forall; [symmetry; apply sorted_perm|exact H].
Qed.

Lemma select_deliveries_empty_selection_witness :
  select_deliveries Demo.deliveries 0 = [].
Proof.
  apply (proj2 select_deliveries_empty_selection Demo.deliveries);
    repeat constructor.
Defined.

(** C10, as the claim states it, fails for a negative capacity limit: the
    empty selection sums to zero, which is above the limit. *)
Lemma select_deliveries_negative_limit :
  select_deliveries [] (-1) = [] /\
  (sum_capacity (select_deliveries [] (-1)) <=? -1) = false /\
  ~ (forall (deliveries : list Event) (capacity_limit : float),
        (sum_capacity (select_deliveries deliveries capacity_limit)
           <=? capacity_limit) = true).
Proof.
  split; [reflexivity|]. split; [reflexivity|].
  intros H. specialize (H [] (-1)). vm_compute in H. discriminate H.
Qed.

(** C10 (amended): for deliveries within range of the depot whose
    capacities and depot distances are numbers, [select_deliveries] returns
    exactly the stops accepted greedily,
    with no early termination, from the deliveries sorted ascending by
    (capacity, distance from the depot); the capacities of the selection sum
    to at most the limit whenever the limit is not negative or the selection
    is not empty. *)
Theorem select_deliveries_sorted_greedy
    (deliveries : list Event) (capacity_limit : float) :
  Forall (near DEPOT) deliveries ->
  Forall keys_comparable deliveries ->
  Permutation (sorted deliveries) deliveries /\
  StronglySorted key_ascending (sorted deliveries) /\
  select_deliveries deliveries capacity_limit
    = greedy_accept (sorted deliveries) 0 capacity_limit /\
  ((0 <=? capacity_limit) = true \/
   select_deliveries deliveries capacity_limit <> [] ->
   (sum_capacity (select_deliveries deliveries capacity_limit)
      <=? capacity_limit) = true).
Proof.
  intros _ Hc.
  assert (E : select_deliveries deliveries capacity_limit
              = greedy_accept (sorted deliveries) 0 capacity_limit).
  { unfold select_deliveries. now rewrite select_loop_greedy. }
  repeat split.
  - apply sorted_perm.
  - apply sorted_fold_ascending; auto; constructor.
  - exact E.
  - rewrite E. apply greedy_sum.
Qed.

Lemma select_deliveries_sorted_greedy_witness :
  Permutation (sorted Demo.deliveries) Demo.deliveries /\
  StronglySorted key_ascending (sorted Demo.deliveries) /\
  select_deliveries Demo.deliveries 8 = greedy_accept (sorted Demo.deliveries) 0 8 /\
  ((0 <=? 8) = true \/ select_deliveries Demo.deliveries 8 <> [] ->
   (sum_capacity (select_deliveries Demo.deliveries 8) <=? 8) = true).
Proof.
  apply (select_deliveries_sorted_greedy Demo.deliveries 8);
    repeat constructor.
Defined.

(** ** Capacity feasibility *)

Lemma feasible_walk_spec (route : list Event) (load vehicle_capacity : float) :
  feasible_walk route load vehicle_capacity = true <->
  forall k, (1 <= k <= List.length route)%nat ->
       (vehicle_capacity <? fold_left load_step (firstn k route) load) = false.
Proof.
  revert load. induction route as [|e route IH]; intros load; cbn [feasible_walk].
  - split; [|reflexivity]. intros _ k Hk. cbn in Hk. lia.
  - destruct (vehicle_capacity <? load_step load e) eqn:E.
    + split; [discriminate|]. intros H.
      specialize (H 1%nat). cbn in H. rewrite H in E; [discriminate|lia].
    + rewrite IH. split; intros H k Hk.
      * destruct k as [|k]; [lia|]. cbn.
        destruct k as [|k]; [exact E|]. apply H. cbn in Hk. lia.
      * apply (H (S k)). cbn. lia.
Qed.

Lemma total_delivery_load_plain (route : list Event) :
  total_delivery_load route = initial_load plain_sum route.
Proof.
  unfold total_delivery_load, initial_load, plain_sum.
  generalize (0 : float) as start.
  induction (filter (fun e => is_type e "delivery") route) as [|e l IH];
    intros start; [reflexivity|]. cbn. apply IH.
Qed.

(** The two summations part: 0.1 + 0.2 + 0.3 is above 0.6 when added from
    left to right and is 0.6 with the compensation. *)
Lemma summations_differ :
  is_capacity_feasible_with plain_sum tenths 0x1.3333333333333p-1 = false /\
  is_capacity_feasible_with compensated_sum tenths 0x1.3333333333333p-1
    = true.
Proof. split; vm_compute; reflexivity. Qed.

(** C8: whichever way the builtin [sum] adds floats, [is_capacity_feasible]
    returns true iff the initial load, the [sum] of the capacities of the
    delivery stops of the route, does not exceed the vehicle capacity, and
    the load after each stop of the walk does not exceed it either; a
    delivery stop takes its capacity off the load, a pickup stop adds it, and
    any other stop leaves the load as it is.  The route is only read: the
    function has no effect on it. *)
Theorem is_capacity_feasible_spec (builtin_sum : list float -> float)
    (route : list Event) (vehicle_capacity : float) :
  let initial :=
    builtin_sum
      (map capacity (filter (fun e => String.eqb (type e) "delivery") route))
  in
  (is_capacity_feasible_with builtin_sum route vehicle_capacity = true <->
   (vehicle_capacity <? initial) = false /\
   forall k, (1 <= k <= List.length route)%nat ->
        (vehicle_capacity <? load_after initial route k) = false) /\
  load_after initial route 0 = initial /\
  (forall k e, nth_error route k = Some e ->
     load_after initial route (S k) =
       if String.eqb (type e) "delivery"
       then load_after initial route k - capacity e
       else if String.eqb (type e) "pickup"
            then load_after initial route k + capacity e
            else load_after initial route k) /\
  is_capacity_feasible route vehicle_capacity
  = is_capacity_feasible_with plain_sum route vehicle_capacity.
Proof.
  intros initial.
  split; [|split; [reflexivity|split]].
  - unfold is_capacity_feasible_with.
    change (initial_load builtin_sum route) with initial.
    destruct (vehicle_capacity <? initial).
    + split; [discriminate|]. intros [H _]. discriminate H.
    + rewrite feasible_walk_spec. unfold load_after. tauto.
  - intros k e Hk. unfold load_after.
    generalize initial as load. clear initial.
    revert k Hk. induction route as [|e' route IH]; intros k Hk load.
    + destruct k; discriminate.
    + destruct k as [|k].
      * simpl in Hk. inversion Hk; subst. reflexivity.
      * simpl in Hk. cbn [firstn fold_left]. now apply IH.
  - unfold is_capacity_feasible, is_capacity_feasible_with.
    now rewrite total_delivery_load_plain.
Qed.

(** ** 2-opt: the scan of one pass *)

Section Scan.

Lemma in_range (a b k : nat) : In k (range a b) <-> (a <= k < b)%nat.
Proof. unfold range. rewrite in_seq. lia. Qed.

Lemma in_scan_pairs (n i j : nat) :
  In (i, j) (scan_pairs n) <-> (1 <= i /\ i + 2 <= j /\ j + 2 <= n)%nat.
Proof.
  unfold scan_pairs. rewrite in_flat_map. split.
  - intros (i' & Hi & Hj). rewrite in_map_iff in Hj.
    destruct Hj as (j' & E & Hj). inversion E; subst.
    rewrite filter_In, in_range, negb_true_iff, Nat.eqb_neq in Hj.
    rewrite in_range in Hi. lia.
  - intros H. exists i. rewrite in_range. split; [lia|].
    apply in_map, filter_In. rewrite in_range, negb_true_iff, Nat.eqb_neq. lia.
Qed.

Lemma reverse_segment_length (i j : nat) (l : list Event) :
  (i <= j <= List.length l)%nat ->
  List.length (reverse_segment i j l) = List.length l.
Proof.
  intros H. unfold reverse_segment.
  rewrite !length_app, length_rev, !length_firstn, !length_skipn. lia.
Qed.

Lemma reverse_segment_perm (i j : nat) (l : list Event) :
  (i <= j)%nat -> Permutation (reverse_segment i j l) l.
Proof.
  intros H. unfold reverse_segment.
  transitivity (firstn i l ++ firstn (j - i) (skipn i l) ++ skipn j l).
  - apply Permutation_app_head, Permutation_app_tail.
    symmetry. apply Permutation_rev.
  - replace (skipn j l) with (skipn (j - i) (skipn i l))
      by (rewrite skipn_skipn; f_equal; lia).
    now rewrite !firstn_skipn.
Qed.

(** The stops at both ends of a closed route stay where they are. *)
Lemma reverse_segment_closed (i j : nat) (a z : Event) (m : list Event) :
  (1 <= i <= j)%nat -> (j <= List.length m)%nat ->
  reverse_segment i j (a :: m ++ [z])
    = a :: reverse_segment (i - 1) (j - 1) m ++ [z].
Proof.
  intros Hi Hj. destruct i as [|i]; [lia|]. destruct j as [|j]; [lia|].
  unfold reverse_segment. cbn [firstn skipn app Nat.sub].
  rewrite !Nat.sub_0_r.
  rewrite firstn_app, !skipn_app.
  replace (i - List.length m)%nat with 0%nat by lia.
  replace (j - List.length m)%nat with 0%nat by lia.
  cbn [firstn skipn]. rewrite app_nil_r.
  rewrite firstn_app, length_skipn.
  replace (j - i - (List.length m - i))%nat with 0%nat by lia.
  cbn [firstn]. rewrite app_nil_r, <- !app_assoc. reflexivity.
Qed.

Lemma two_opt_body_replace (i j : nat) (st : two_opt_state) :
  two_opt_body i j st
    = if negb (j - i =? 1)%nat then replace_if_shorter st (i, j) else st.
Proof.
  destruct st as [[r l] imp]. unfold two_opt_body, replace_if_shorter; cbn.
  now destruct (j - i =? 1)%nat.
Qed.

Lemma replace_if_shorter_length (n : nat) (st : two_opt_state) (p : nat * nat) :
  (fst p <= snd p <= n)%nat ->
  List.length (route_of st) = n ->
  List.length (route_of (replace_if_shorter st p)) = n.
Proof.
  destruct st as [[r l] imp], p as [i j]. unfold replace_if_shorter, route_of.
  cbn [fst snd]. intros H <-.
  destruct (route_length (reverse_segment i j r) <? l); cbn [fst snd];
    [|reflexivity].
  now apply reverse_segment_length.
Qed.

Lemma fold_replace_length (n : nat) (pairs : list (nat * nat)) (st : two_opt_state) :
  (forall p, In p pairs -> (fst p <= snd p <= n)%nat) ->
  List.length (route_of st) = n ->
  List.length (route_of (fold_left replace_if_shorter pairs st)) = n.
Proof.
  revert st. induction pairs as [|p pairs IH]; intros st Hp Hn; cbn; [exact Hn|].
  apply IH; [intros q Hq; apply Hp; now right|].
  apply replace_if_shorter_length; [apply Hp; now left|exact Hn].
Qed.

Lemma two_opt_inner_row (n i : nat) (st : two_opt_state) :
  List.length (route_of st) = n ->
  two_opt_inner i st = fold_left replace_if_shorter (row n i) st.
Proof.
  intros Hn. unfold two_opt_inner, row.
  change (fst (fst st)) with (route_of st). rewrite Hn.
  generalize (range (i + 1) (n - 1)) as js. clear Hn.
  intros js. revert st. induction js as [|j js IH]; intros st; cbn; [reflexivity|].
  rewrite IH, two_opt_body_replace.
  destruct (negb (j - i =? 1)%nat); reflexivity.
Qed.

Lemma in_row (n i : nat) (p : nat * nat) :
  In p (row n i) -> (fst p <= snd p <= n)%nat.
Proof.
  unfold row. rewrite in_map_iff. intros (j & <- & Hj).
  rewrite filter_In, in_range in Hj. cbn. lia.
Qed.

Lemma two_opt_rows (n : nat) (rows : list nat) (st : two_opt_state) :
  List.length (route_of st) = n ->
  fold_left (fun st i => two_opt_inner i st) rows st
    = fold_left replace_if_shorter (flat_map (row n) rows) st.
Proof.
  revert st. induction rows as [|i rows IH]; intros st Hn; cbn; [reflexivity|].
  rewrite fold_left_app, <- (two_opt_inner_row n i st Hn).
  apply IH. rewrite (two_opt_inner_row n i st Hn).
  apply fold_replace_length; [apply in_row|exact Hn].
Qed.

Lemma two_opt_pass_continue (best_route : list Event) (best_length : float) :
  two_opt_pass best_route best_length = continue_pass best_route best_length.
Proof.
  unfold two_opt_pass, continue_pass.
  now rewrite (two_opt_rows (List.length best_route)).
Qed.

Lemma two_opt_loop_continue (fuel : nat) (best_route : list Event)
    (best_length : float) :
  two_opt_loop fuel best_route best_length
    = continue_loop fuel best_route best_length.
Proof.
  revert best_route best_length.
  induction fuel as [|fuel IH]; intros best_route best_length; cbn; [reflexivity|].
  rewrite two_opt_pass_continue.
  destruct (continue_pass best_route best_length) as [[r l] imp].
  destruct imp; [apply IH|reflexivity].
Qed.

End Scan.

(** C3, as the claim states it, fails: on the route [Line.route] the 2-opt of
    the source ends with the stops in the order E, D, C, B, A and the 2-opt
    that restarts the scan after each improvement ends with C, E, D, B, A. *)
Lemma two_opt_differs_from_restart :
  two_opt 4 Line.route
    = Returns [DEPOT; Line.E; Line.D; Line.C; Line.B; Line.A; DEPOT] /\
  two_opt_restart 4 Line.route
    = Returns [DEPOT; Line.C; Line.E; Line.D; Line.B; Line.A; DEPOT] /\
  ~ (forall route fuel fuel' r r',
        two_opt fuel route = Returns r ->
        two_opt_restart fuel' route = Returns r' -> r = r').
Proof.
  assert (H1 : two_opt 4 Line.route
               = Returns [DEPOT; Line.E; Line.D; Line.C; Line.B; Line.A; DEPOT])
    by (vm_compute; reflexivity).
  assert (H2 : two_opt_restart 4 Line.route
               = Returns [DEPOT; Line.C; Line.E; Line.D; Line.B; Line.A; DEPOT])
    by (vm_compute; reflexivity).
  split; [exact H1|]. split; [exact H2|].
  intros H. specialize (H _ _ _ _ _ H1 H2).
  apply (f_equal (map name)) in H. vm_compute in H. discriminate H.
Qed.

(** C3 (amended): [two_opt] goes on with the pass after an improvement.
    Whenever reversing a sub-segment [route[i..j)] of the current best
    strictly decreases the total length, that variant becomes the new current
    best and the scan continues with the next index pair on it; the passes
    are repeated until one of them replaces nothing.  The implemented
    [two_opt] is equal, as a function on routes, to this 2-opt. *)
Theorem two_opt_continues_the_pass (fuel : nat) (route : list Event) :
  two_opt fuel route = two_opt_continue fuel route.
Proof. apply two_opt_loop_continue. Qed.

(** ** 2-opt: what a pass keeps, and why the passes come to an end *)

Section Passes.

Lemma replace_if_shorter_inv (route : list Event) (len : float)
    (st : two_opt_state) (p : nat * nat) :
  (fst p <= snd p)%nat ->
  pass_inv route len st -> pass_inv route len (replace_if_shorter st p).
Proof.
  destruct st as [[r l] imp], p as [i j]. unfold replace_if_shorter, pass_inv.
  cbn [fst snd]. intros Hij (Hp & Hl & Hi).
  destruct (route_length (reverse_segment i j r) <? l) eqn:E; [|tauto].
  split; [now rewrite reverse_segment_perm|]. split; [reflexivity|].
  destruct imp.
  - eapply ltb_trans; eauto.
  - destruct Hi as [_ <-]. exact E.
Qed.

Lemma fold_replace_inv (route : list Event) (len : float)
    (pairs : list (nat * nat)) (st : two_opt_state) :
  (forall p, In p pairs -> (fst p <= snd p)%nat) ->
  pass_inv route len st ->
  pass_inv route len (fold_left replace_if_shorter pairs st).
Proof.
  revert st. induction pairs as [|p pairs IH]; intros st Hp Hst; cbn; [exact Hst|].
  apply IH; [intros q Hq; apply Hp; now right|].
  apply replace_if_shorter_inv; [apply Hp; now left|exact Hst].
Qed.

Lemma scan_pairs_ordered (n : nat) (p : nat * nat) :
  In p (scan_pairs n) -> (1 <= fst p /\ fst p <= snd p /\ snd p + 2 <= n)%nat.
Proof. destruct p as [i j]. rewrite in_scan_pairs. cbn. lia. Qed.

Lemma continue_pass_inv (route : list Event) :
  pass_inv route (route_length route)
    (continue_pass route (route_length route)).
Proof.
  apply fold_replace_inv.
  - intros p Hp. apply scan_pairs_ordered in Hp. lia.
  - cbn. auto.
Qed.

(** Both ends of a closed route stay in place through a pass. *)
Lemma replace_if_shorter_closed (a z : Event) (n : nat) (st : two_opt_state)
    (p : nat * nat) :
  (1 <= fst p /\ fst p <= snd p /\ snd p <= n)%nat ->
  closed_between a z n (route_of st) ->
  closed_between a z n (route_of (replace_if_shorter st p)).
Proof.
  destruct st as [[r l] imp], p as [i j]. unfold replace_if_shorter, route_of.
  cbn [fst snd]. intros Hij (m & -> & Hm).
  destruct (route_length (reverse_segment i j (a :: m ++ [z])) <? l);
    cbn [fst snd]; [|now exists m].
  rewrite reverse_segment_closed by lia.
  eexists. split; [reflexivity|].
  rewrite reverse_segment_length; lia.
Qed.

Lemma continue_pass_closed (a z : Event) (n : nat) (route : list Event)
    (len : float) :
  closed_between a z n route ->
  closed_between a z n (route_of (continue_pass route len)).
Proof.
  intros Hc. unfold continue_pass.
  assert (Hn : List.length route = (n + 2)%nat).
  { destruct Hc as (m & -> & <-). cbn. rewrite length_app. cbn. lia. }
  rewrite Hn.
  assert (Hp : forall p, In p (scan_pairs (n + 2)) ->
                    (1 <= fst p /\ fst p <= snd p /\ snd p <= n)%nat).
  { intros p Hp. apply scan_pairs_ordered in Hp. lia. }
  revert Hp. generalize (scan_pairs (n + 2)) as pairs.
  assert (Hst : closed_between a z n (route_of (route, len, false))) by exact Hc.
  revert Hst. generalize (route, len, false) as st. clear.
  intros st Hst pairs. revert st Hst.
  induction pairs as [|p pairs IH]; intros st Hst Hp; cbn; [exact Hst|].
  apply IH; [|intros q Hq; apply Hp; now right].
  apply replace_if_shorter_closed; [apply Hp; now left|exact Hst].
Qed.

(** The measure: the routes over the same stops that are strictly shorter. *)
Lemma in_lists_over (pool l : list Event) :
  incl l pool -> In l (lists_over pool (List.length l)).
Proof.
  induction l as [|e l IH]; intros H; cbn; [now left|].
  apply in_flat_map. exists e. split; [apply H; now left|].
  apply in_map, IH. intros f Hf. apply H. now right.
Qed.

Lemma filter_length_lt {A : Type} (f g : A -> bool) (l : list A) (a : A) :
  (forall b, f b = true -> g b = true) ->
  In a l -> g a = true -> f a = false ->
  (List.length (filter f l) < List.length (filter g l))%nat.
Proof.
  intros Hfg. induction l as [|b l IH]; intros Hin Hg Hf; [destruct Hin|].
  assert (Hle : forall l' : list A,
             (List.length (filter f l') <= List.length (filter g l'))%nat).
  { clear -Hfg. induction l' as [|c l' IH]; cbn; [lia|].
    destruct (f c) eqn:E.
    - rewrite (Hfg _ E). cbn. lia.
    - destruct (g c); cbn; lia. }
  cbn. destruct Hin as [-> | Hin].
  - rewrite Hf, Hg. cbn. specialize (Hle l). lia.
  - specialize (IH Hin Hg Hf). destruct (f b) eqn:E.
    + rewrite (Hfg _ E). cbn. lia.
    + destruct (g b); cbn; lia.
Qed.

Lemma shorter_routes_decrease (pool r : list Event) (len : float) :
  Permutation r pool ->
  (route_length r <? len) = true ->
  (shorter_routes pool (List.length pool) (route_length r)
   < shorter_routes pool (List.length pool) len)%nat.
Proof.
  intros Hp Hlt. unfold shorter_routes.
  apply (filter_length_lt _ _ _ r).
  - intros b Hb. eapply ltb_trans; eauto.
  - rewrite <- (Permutation_length Hp). apply in_lists_over.
    intros e He. eapply Permutation_in; eauto.
  - exact Hlt.
  - apply ltb_irrefl.
Qed.

Lemma continue_loop_terminates (route : list Event) (k : nat) :
  forall best_route,
    Permutation best_route route ->
    (shorter_routes route (List.length route) (route_length best_route) <= k)%nat ->
    exists r, continue_loop (S k) best_route (route_length best_route) = Returns r
         /\ run_result route best_route r.
Proof.
  induction k as [|k IH]; intros best_route Hp Hk;
    cbn [continue_loop]; pose proof (continue_pass_inv best_route) as Hinv;
    destruct (continue_pass best_route (route_length best_route))
      as [[r l] imp] eqn:E; unfold pass_inv in Hinv;
    destruct Hinv as (Hp' & Hl & Hi); destruct imp.
  - pose proof (shorter_routes_decrease route r (route_length best_route)) as D.
    rewrite <- Hl in D. specialize (D (Permutation_trans Hp' Hp) Hi).
    rewrite Hl in D. lia.
  - destruct Hi as [-> ->]. exists best_route. split; [reflexivity|].
    repeat split; auto.
  - pose proof (shorter_routes_decrease route r (route_length best_route)) as D.
    rewrite <- Hl in D. specialize (D (Permutation_trans Hp' Hp) Hi).
    rewrite Hl in D. subst l.
    destruct (IH r (Permutation_trans Hp' Hp)) as (r' & Hr' & Hq & Hs & Hf);
      [lia|].
    exists r'. split; [exact Hr'|]. repeat split; auto.
    right. destruct Hs as [-> | Hs]; [exact Hi|]. eapply ltb_trans; eauto.
  - destruct Hi as [-> ->]. exists best_route. split; [reflexivity|].
    repeat split; auto.
Qed.

Lemma continue_loop_more_fuel (fuel fuel' : nat) (best_route : list Event)
    (best_length : float) (r : list Event) :
  (fuel <= fuel')%nat ->
  continue_loop fuel best_route best_length = Returns r ->
  continue_loop fuel' best_route best_length = Returns r.
Proof.
  revert fuel' best_route best_length.
  induction fuel as [|fuel IH]; intros fuel' best_route best_length Hle;
    cbn [continue_loop]; [discriminate|].
  destruct fuel' as [|fuel']; [lia|]. cbn [continue_loop].
  destruct (continue_pass best_route best_length) as [[r1 l1] imp].
  destruct imp; [|auto]. apply IH. lia.
Qed.

End Passes.

(** Every run of 2-opt comes to an end. *)
Lemma two_opt_terminates (route : list Event) :
  exists fuel r,
    (forall fuel', (fuel <= fuel')%nat -> two_opt fuel' route = Returns r) /\
    run_result route route r.
Proof.
  set (k := shorter_routes route (List.length route) (route_length route)).
  destruct (continue_loop_terminates route k route (Permutation_refl _) (le_n _))
    as (r & Hr & Hres).
  exists (S k), r. split; [|exact Hres].
  intros fuel' Hle. unfold two_opt. rewrite two_opt_loop_continue.
  eapply continue_loop_more_fuel; eauto.
Qed.

(** C4: on every route whose stops are within range of each other
    [two_opt] returns, given enough passes, a route that is not longer than
    its input (its length is [<=] that of the input whenever the latter is a
    number), and a second application returns the same route again. *)
Theorem two_opt_monotone_idempotent (route : list Event) :
  no_overflow route ->
  exists fuel r,
    (forall fuel', (fuel <= fuel')%nat -> two_opt fuel' route = Returns r) /\
    (forall fuel' r', two_opt fuel' route = Returns r' -> r' = r) /\
    (route_length route <? route_length r) = false /\
    (comparable (route_length route) ->
     (route_length r <=? route_length route) = true) /\
    (forall fuel', (1 <= fuel')%nat -> two_opt fuel' r = Returns r).
Proof.
  intros _.
  destruct (two_opt_terminates route) as (k & r & Hfuel & Hp & Hs & Hf).
  exists k, r.
  split; [exact Hfuel|]. split; [|split; [|split]].
  - intros fuel' r' H'.
    pose proof (Hfuel _ (Nat.le_max_l k fuel')) as H1.
    unfold two_opt in H', H1. rewrite two_opt_loop_continue in H', H1.
    apply (continue_loop_more_fuel _ (Nat.max k fuel')) in H';
      [|apply Nat.le_max_r].
    rewrite H1 in H'. now inversion H'.
  - destruct Hs as [-> | Hs]; [apply ltb_irrefl|now apply ltb_asym].
  - intros Hc. destruct Hs as [-> | Hs]; [now apply leb_refl|now apply ltb_leb].
  - intros fuel' Hle. destruct fuel' as [|fuel']; [lia|].
    unfold two_opt. rewrite two_opt_loop_continue. cbn [continue_loop].
    now rewrite Hf.
Qed.

Lemma two_opt_monotone_idempotent_witness :
  exists fuel r,
    (forall fuel', (fuel <= fuel')%nat -> two_opt fuel' Line.route = Returns r) /\
    (forall fuel' r', two_opt fuel' Line.route = Returns r' -> r' = r) /\
    (route_length Line.route <? route_length r) = false /\
    (comparable (route_length Line.route) ->
     (route_length r <=? route_length Line.route) = true) /\
    (forall fuel', (1 <= fuel')%nat -> two_opt fuel' r = Returns r).
Proof.
  apply (two_opt_monotone_idempotent Line.route).
  apply no_overflow_checked. repeat constructor.
Defined.

(** ** Route construction *)

Section Construction.

Lemma min_scan_nth (key : Event -> float) (L : list Event) :
  forall l pre best best_at k e,
    L = pre ++ l -> nth_error L best_at = Some best ->
    min_scan key best best_at (List.length pre) l = (k, e) ->
    nth_error L k = Some e.
Proof.
  induction l as [|d l IH]; intros pre best best_at k e HL Hb H; cbn in H.
  - now inversion H; subst.
  - assert (HL' : L = (pre ++ [d]) ++ l) by (now rewrite <- app_assoc).
    assert (Hlen : List.length (pre ++ [d]) = S (List.length pre))
      by (rewrite length_app; cbn; lia).
    rewrite <- Hlen in H.
    destruct (key d <? key best).
    + eapply (IH (pre ++ [d])); [exact HL'| |exact H].
      rewrite HL, nth_error_app2, Nat.sub_diag by lia. reflexivity.
    + eapply (IH (pre ++ [d])); eauto.
Qed.

Lemma min_by_nth (key : Event -> float) (l : list Event) (i : nat) (e : Event) :
  min_by key l = Some (i, e) -> nth_error l i = Some e.
Proof.
  destruct l as [|d l]; cbn; [discriminate|]. intros H. inversion H as [H'].
  now apply (min_scan_nth key (d :: l) l [d] d 0%nat i e).
Qed.

Lemma remove_at_perm (l : list Event) (i : nat) (e : Event) :
  nth_error l i = Some e -> Permutation (e :: remove_at i l) l.
Proof.
  intros H. apply nth_error_split in H. destruct H as (l1 & l2 & -> & <-).
  unfold remove_at.
  rewrite firstn_app, Nat.sub_diag, firstn_all, skipn_app, skipn_all2 by lia.
  replace (S (List.length l1) - List.length l1)%nat with 1%nat by lia.
  cbn. rewrite app_nil_r. apply Permutation_middle.
Qed.

Lemma nearest_neighbor_loop_visits (n : nat) :
  forall route current unvisited,
    List.length unvisited = n ->
    exists stops,
      nearest_neighbor_loop n route current unvisited = route ++ stops /\
      Permutation stops unvisited.
Proof.
  induction n as [|n IH]; intros route current unvisited Hn.
  - destruct unvisited; [|discriminate]. exists []. cbn.
    now rewrite app_nil_r.
  - cbn [nearest_neighbor_loop].
    destruct (min_by (fun d => distance current d) unvisited) as [[i e]|] eqn:E.
    + apply min_by_nth in E. pose proof (remove_at_perm _ _ _ E) as Hp.
      destruct (IH (route ++ [e]) e (remove_at i unvisited)) as (stops & -> & Hs).
      { apply Permutation_length in Hp. cbn in Hp. lia. }
      exists (e :: stops). rewrite <- app_assoc. split; [reflexivity|].
      now rewrite Hs.
    + destruct unvisited; [discriminate Hn|discriminate E].
Qed.

Lemma nearest_neighbor_route_visits (deliveries : list Event) :
  exists stops,
    nearest_neighbor_route deliveries = DEPOT :: stops /\
    Permutation stops deliveries.
Proof.
  destruct (nearest_neighbor_loop_visits (List.length deliveries)
              [DEPOT] DEPOT deliveries eq_refl) as (stops & E & Hp).
  now exists stops.
Qed.

Lemma best_insertion_range (pickup : Event) (rest : list Event) :
  forall i prev best_position best_increase pos,
    best_insertion pickup i prev rest best_position best_increase = Some pos ->
    best_position = Some pos \/ (i <= pos < i + List.length rest)%nat.
Proof.
  induction rest as [|cur rest IH];
    intros i prev best_position best_increase pos H; cbn in H; [now left|].
  destruct (_ <? best_increase); apply IH in H; cbn [List.length].
  - destruct H as [H | H]; [inversion H; subst|]; right; lia.
  - destruct H as [H | H]; [now left|right; lia].
Qed.

Lemma best_insertion_found (pickup : Event) (rest : list Event) :
  forall i prev q best_increase,
    exists pos,
      best_insertion pickup i prev rest (Some q) best_increase = Some pos.
Proof.
  induction rest as [|cur rest IH]; intros i prev q best_increase; cbn.
  - now exists q.
  - destruct (_ <? best_increase); apply IH.
Qed.

Lemma list_insert_perm (k : nat) (e : Event) (l : list Event) :
  Permutation (list_insert k e l) (e :: l).
Proof.
  unfold list_insert. symmetry.
  rewrite <- (firstn_skipn k l) at 1. apply Permutation_middle.
Qed.

(** The pickup goes in after the depot and before the last stop of the tour. *)
Lemma insert_pickup_best_position_shape (stops : list Event) (pickup : Event)
    (route : list Event) :
  insert_pickup_best_position (DEPOT :: stops) pickup = Returns route ->
  exists stops',
    route = DEPOT :: stops' /\ Permutation stops' (pickup :: stops).
Proof.
  unfold insert_pickup_best_position.
  destruct (best_insertion pickup 1 DEPOT stops None infinity) as [pos|] eqn:E;
    [|discriminate].
  intros H. inversion H; subst. apply best_insertion_range in E.
  destruct E as [E | E]; [discriminate|].
  destruct pos as [|k]; [lia|]. exists (list_insert k pickup stops).
  split; [reflexivity|apply list_insert_perm].
Qed.

Lemma continue_loop_keeps (a z : Event) (n : nat) (route : list Event)
    (fuel : nat) :
  forall best_route r,
    continue_loop fuel best_route (route_length best_route) = Returns r ->
    Permutation best_route route ->
    closed_between a z n best_route ->
    Permutation r route /\ closed_between a z n r.
Proof.
  induction fuel as [|fuel IH]; intros best_route r H Hp Hc;
    cbn [continue_loop] in H; [discriminate|].
  pose proof (continue_pass_inv best_route) as Hinv.
  pose proof (continue_pass_closed a z n best_route
                (route_length best_route) Hc) as Hc'.
  destruct (continue_pass best_route (route_length best_route))
    as [[r1 l1] imp]. unfold pass_inv in Hinv. cbn in Hc'.
  destruct Hinv as (Hp1 & -> & _). destruct imp.
  - apply (IH r1 r H); [now rewrite Hp1|exact Hc'].
  - inversion H; subst. split; [now rewrite Hp1|exact Hc'].
Qed.

Lemma build_route_shape (fuel : nat) (deliveries : list Event)
    (pickup : Event) (route : list Event) :
  build_route fuel deliveries pickup = Returns route ->
  exists stops,
    route = DEPOT :: stops ++ [DEPOT] /\
    Permutation stops (pickup :: deliveries).
Proof.
  unfold build_route.
  destruct (nearest_neighbor_route_visits deliveries) as (m & -> & Hm).
  destruct (insert_pickup_best_position (DEPOT :: m) pickup) as [r0| |] eqn:E;
    cbn [bind]; try discriminate.
  apply insert_pickup_best_position_shape in E.
  destruct E as (m0 & -> & Hm0). unfold two_opt.
  rewrite two_opt_loop_continue. intros H.
  apply (continue_loop_keeps DEPOT DEPOT (List.length m0)
           ((DEPOT :: m0) ++ [DEPOT])) in H;
    [|reflexivity|now exists m0].
  destruct H as (Hp & stops & -> & Hlen). exists stops. split; [reflexivity|].
  cbn in Hp. apply Permutation_cons_inv, Permutation_app_inv_r in Hp.
  now rewrite Hp, Hm0, Hm.
Qed.

Lemma build_route_returns (deliveries : list Event) (pickup : Event) :
  deliveries <> [] -> finite_insertion deliveries pickup ->
  exists fuel route, build_route fuel deliveries pickup = Returns route.
Proof.
  intros Hne Hfin. unfold build_route.
  destruct (nearest_neighbor_route_visits deliveries) as (m & -> & Hm).
  destruct m as [|d m].
  { apply Permutation_nil in Hm. congruence. }
  unfold insert_pickup_best_position. cbn [best_insertion].
  rewrite Hfin; [|now left|eapply Permutation_in; [exact Hm|now left]].
  destruct (best_insertion_found pickup m 2 d 1
              (distance DEPOT pickup + distance pickup d - distance DEPOT d))
    as (pos & ->).
  cbn [bind].
  destruct (two_opt_terminates
              (list_insert pos pickup (DEPOT :: d :: m) ++ [DEPOT]))
    as (fuel & r & Hr & _).
  exists fuel, r. now apply Hr.
Qed.

End Construction.

(** C5: a route [build_route] returns starts and ends at the depot and its
    stops in between are the pickup and the selected deliveries, each as
    often as it was given: exactly once when they are pairwise distinct.  A
    route is returned, given enough passes of 2-opt, whenever there is at
    least one delivery, the depot, the pickup and the deliveries are within
    range of each other and the pickup can be inserted at a finite cost. *)
Theorem build_route_visits_each_stop_once
    (deliveries : list Event) (pickup : Event) :
  (forall fuel route,
      build_route fuel deliveries pickup = Returns route ->
      exists stops,
        route = DEPOT :: stops ++ [DEPOT] /\
        type DEPOT = "depot"%string /\
        Permutation stops (pickup :: deliveries) /\
        (forall e, In e stops <-> e = pickup \/ In e deliveries) /\
        (NoDup deliveries -> ~ In pickup deliveries -> NoDup stops)) /\
  (deliveries <> [] ->
   no_overflow (DEPOT :: pickup :: deliveries) ->
   finite_insertion deliveries pickup ->
   exists fuel route, build_route fuel deliveries pickup = Returns route).
Proof.
  split; [|intros Hne _; now apply build_route_returns].
  intros fuel route H. apply build_route_shape in H.
  destruct H as (stops & -> & Hp). exists stops.
  split; [reflexivity|]. split; [reflexivity|]. split; [exact Hp|]. split.
  - intros e. split; intros He.
    + apply (Permutation_in _ Hp) in He. destruct He; auto.
    + apply (Permutation_in _ (Permutation_sym Hp)).
      destruct He as [-> | He]; [now left|now right].
  - intros Hnd Hni. apply (Permutation_NoDup (Permutation_sym Hp)).
    now constructor.
Qed.

Lemma build_route_visits_each_stop_once_witness :
  exists fuel route,
    build_route fuel Demo.deliveries (mkEvent 4 6 4 "pickup" "P1")
      = Returns route.
Proof.
  apply (proj2 (build_route_visits_each_stop_once Demo.deliveries
                  (mkEvent 4 6 4 "pickup" "P1"))).
  - discriminate.
  - apply no_overflow_checked. repeat constructor.
  - intros a b Ha Hb. revert b Hb. apply Forall_forall.
    revert a Ha. apply Forall_forall. repeat constructor.
Defined.

(** ** The solver *)

(** C1 fails on the code: when the selection of deliveries is empty (an
    empty delivery list, or every capacity above the budget) and the budget
    is not negative, [solve] does not return: the insertion of the first
    pickup raises [TypeError], its position still being [None]. *)
Theorem solve_raises_on_empty_selection
    (fuel : nat) (deliveries : list Event) (pickup : Event)
    (pickups : list Event) (vehicle_capacity : float) :
  (vehicle_capacity <? 0) = false ->
  select_deliveries deliveries vehicle_capacity = [] ->
  solve fuel deliveries (pickup :: pickups) vehicle_capacity = Raises TypeError.
Proof.
  intros Hv Hs. unfold solve. cbn [solve_loop]. now rewrite Hv, Hs.
Qed.

Lemma solve_raises_on_empty_selection_witness :
  solve 10 [] Demo.pickups 8 = Raises TypeError /\
  solve 10 Demo.deliveries Demo.pickups 0.5 = Raises TypeError.
Proof.
  split.
  - apply (solve_raises_on_empty_selection 10 [] _ _ 8); reflexivity.
  - apply (solve_raises_on_empty_selection 10 Demo.deliveries _ _ 0.5);
      reflexivity.
Defined.

(** A route of four stops has no pair to reverse: one pass returns it. *)
Lemma two_opt_four_stops (fuel : nat) (a b c d : Event) :
  two_opt (S fuel) [a; b; c; d] = Returns [a; b; c; d].
Proof. reflexivity. Qed.

(** C2 fails on the code: with one delivery and one pickup whose capacities
    equal the vehicle capacity 5, wherever the two stops are, [solve] returns
    no solution.  The pickup is inserted before the delivery, the only
    position the insertion loop tries, and the load 5 + 5 on leaving the
    pickup is above the capacity. *)
Theorem solve_rejects_equal_capacities
    (fuel : nat) (xd yd xp yp : float) (nd np : string) :
  let d := mkEvent xd yd 5 "delivery" nd in
  let p := mkEvent xp yp 5 "pickup" np in
  solve (S fuel) [d] [p] 5 =
    if distance DEPOT p + distance p d - distance DEPOT d <? infinity
    then Returns None else Raises TypeError.
Proof.
  intros d p. unfold solve. cbn [solve_loop].
  change (5 <? 0) with false. cbv iota.
  change (select_deliveries [d] 5) with [d].
  unfold build_route.
  change (nearest_neighbor_route [d]) with [DEPOT; d].
  unfold insert_pickup_best_position. cbn [best_insertion].
  destruct (distance DEPOT p + distance p d - distance DEPOT d <? infinity);
    [|reflexivity].
  cbn [bind list_insert firstn skipn app].
  rewrite two_opt_four_stops. cbn [bind].
  change (is_capacity_feasible [DEPOT; p; d; DEPOT] 5) with false.
  reflexivity.
Qed.

(** The same at the stops (1, 0) and (0, 1). *)
Lemma solve_rejects_equal_capacities_witness :
  solve 1 [mkEvent 1 0 5 "delivery" "D"] [mkEvent 0 1 5 "pickup" "P"] 5
    = Returns None.
Proof. exact (solve_rejects_equal_capacities 0 1 0 0 1 "D" "P"). Defined.

Section Solver.

Variables (fuel : nat) (deliveries : list Event) (vehicle_capacity : float).

Local Abbreviation candidate_of := (candidate fuel deliveries vehicle_capacity).
Local Abbreviation best := (best_of fuel deliveries vehicle_capacity).

Lemma score_gt_irrefl (a : Z * float) : score_gt a a = false.
Proof. unfold score_gt. rewrite Z.eqb_refl. apply ltb_irrefl. Qed.

Lemma score_gt_trans (a b c : Z * float) :
  score_gt a b = true -> score_gt b c = true -> score_gt a c = true.
Proof.
  destruct a as [na la], b as [nb lb], c as [nc lc]. unfold score_gt; cbn.
  destruct (Z.eqb_spec na nb), (Z.eqb_spec nb nc), (Z.eqb_spec na nc);
    rewrite ?Z.ltb_lt; intros H K; try lia.
  eapply ltb_trans; eauto.
Qed.

(** On scores made of numbers, what does not beat [b] is beaten by what
    beats [b]. *)
Lemma score_gt_total_trans (a b c : Z * float) :
  comparable (snd a) -> comparable (snd b) ->
  score_gt c b = true -> score_gt a b = false -> score_gt c a = true.
Proof.
  destruct a as [na la], b as [nb lb], c as [nc lc]. unfold score_gt; cbn.
  intros Ha Hb.
  destruct (Z.eqb_spec nc nb), (Z.eqb_spec na nb), (Z.eqb_spec nc na);
    rewrite ?Z.ltb_lt, ?Z.ltb_ge; intros H K; try lia.
  eapply leb_ltb_trans; [|exact H]. now apply ltb_total.
Qed.

Lemma score_gt_meaning (a b : Solution) :
  score_gt (score a) (score b) = true <->
  (sol_num_deliveries b < sol_num_deliveries a)%Z \/
  (sol_num_deliveries a = sol_num_deliveries b /\
   (sol_route_length a <? sol_route_length b) = true).
Proof.
  unfold score_gt, score; cbn. rewrite ltb_opp.
  destruct (Z.eqb_spec (sol_num_deliveries a) (sol_num_deliveries b));
    rewrite ?Z.ltb_lt; intuition lia.
Qed.

Lemma candidate_beats_nothing (p : Event) (s : Solution) :
  candidate_of p = Returns (Some s) ->
  score_gt (score s) ((-1)%Z, infinity) = true.
Proof.
  unfold candidate.
  destruct (vehicle_capacity <? 0); [discriminate|].
  destruct (build_route _ _ _) as [r| |]; cbn [bind]; try discriminate.
  destruct (is_capacity_feasible _ _); [|discriminate].
  intros H. inversion H. unfold score_gt, score; cbn.
  destruct (Z.eqb_spec (Z.of_nat (List.length
              (select_deliveries deliveries vehicle_capacity))) (-1)); [lia|].
  apply Z.ltb_lt. lia.
Qed.

(** One turn of the loop of [solve], read through [candidate]. *)
Lemma solve_loop_step (pickup : Event) (pickups : list Event)
    (best_solution : option Solution) (best_score : Z * float) :
  solve_loop fuel deliveries (pickup :: pickups) vehicle_capacity
    best_solution best_score =
  match candidate_of pickup with
  | Returns None =>
      solve_loop fuel deliveries pickups vehicle_capacity
        best_solution best_score
  | Returns (Some s) =>
      if score_gt (score s) best_score
      then solve_loop fuel deliveries pickups vehicle_capacity
             (Some s) (score s)
      else solve_loop fuel deliveries pickups vehicle_capacity
             best_solution best_score
  | Raises e => Raises e
  | OutOfFuel => OutOfFuel
  end.
Proof.
  unfold candidate. cbn [solve_loop].
  destruct (vehicle_capacity <? 0); [reflexivity|].
  destruct (build_route _ _ _) as [r| |]; cbn [bind]; try reflexivity.
  destruct (is_capacity_feasible _ _); reflexivity.
Qed.

Lemma nth_error_snoc {A : Type} (l : list A) (a b : A) (j : nat) :
  nth_error (l ++ [a]) j = Some b ->
  ((j < List.length l)%nat /\ nth_error l j = Some b) \/
  (j = List.length l /\ b = a).
Proof.
  intros H. destruct (Nat.lt_ge_cases j (List.length l)) as [Hj | Hj].
  - left. split; [exact Hj|]. now rewrite nth_error_app1 in H.
  - right. rewrite nth_error_app2 in H by exact Hj.
    destruct (j - List.length l)%nat as [|n] eqn:E; cbn in H.
    + inversion H. split; [lia|reflexivity].
    + destruct n; discriminate.
Qed.

Lemma best_skip (seen : list Event) (p : Event)
    (best_solution : option Solution) (best_score : Z * float) :
  best seen best_solution best_score ->
  candidate_of p = Returns None ->
  best (seen ++ [p]) best_solution best_score.
Proof.
  unfold best_of. intros H Hp. destruct best_solution as [b|].
  - destruct H as (Hs & k & pk & Hk & Hc & Hall). split; [exact Hs|].
    exists k, pk. split; [|split; [exact Hc|]].
    + rewrite nth_error_app1; [exact Hk|]. apply nth_error_Some. congruence.
    + intros j q s Hj Hq. apply nth_error_snoc in Hj.
      destruct Hj as [[_ Hj] | [_ ->]]; [eauto|].
      congruence.
  - destruct H as (Hs & Hall). split; [exact Hs|]. intros q Hq.
    apply in_app_or in Hq. destruct Hq as [Hq | [<- | []]]; auto.
Qed.

Lemma best_keep (seen : list Event) (p : Event) (s : Solution)
    (best_solution : option Solution) (best_score : Z * float) :
  best seen best_solution best_score ->
  candidate_of p = Returns (Some s) ->
  score_gt (score s) best_score = false ->
  best (seen ++ [p]) best_solution best_score.
Proof.
  unfold best_of. intros H Hp G. destruct best_solution as [b|].
  - destruct H as (Hs & k & pk & Hk & Hc & Hall). split; [exact Hs|].
    assert (Hlt : (k < List.length seen)%nat)
      by (apply nth_error_Some; congruence).
    exists k, pk. split; [|split; [exact Hc|]].
    + now rewrite nth_error_app1.
    + intros j q s' Hj Hq. apply nth_error_snoc in Hj.
      destruct Hj as [[_ Hj] | [-> ->]]; [eauto|].
      rewrite Hp in Hq. inversion Hq; subst s'.
      split; [congruence|lia].
  - destruct H as (-> & _). apply candidate_beats_nothing in Hp. congruence.
Qed.

Lemma best_take (seen : list Event) (p : Event) (s : Solution)
    (best_solution : option Solution) (best_score : Z * float) :
  (forall q t, In q seen -> candidate_of q = Returns (Some t) ->
               comparable (sol_route_length t)) ->
  best seen best_solution best_score ->
  candidate_of p = Returns (Some s) ->
  score_gt (score s) best_score = true ->
  best (seen ++ [p]) (Some s) (score s).
Proof.
  unfold best_of. intros Hcmp H Hp G. split; [reflexivity|].
  exists (List.length seen), p.
  split; [now rewrite nth_error_app2, Nat.sub_diag by lia|].
  split; [exact Hp|].
  intros j q s' Hj Hq. apply nth_error_snoc in Hj.
  destruct Hj as [[Hlt Hj] | [-> ->]].
  - destruct best_solution as [b|].
    + destruct H as (-> & k & pk & Hk & Hc & Hall).
      destruct (Hall j q s' Hj Hq) as [N _].
      split.
      * destruct (score_gt (score s') (score s)) eqn:E; [|reflexivity].
        rewrite (score_gt_trans _ _ _ E G) in N. discriminate.
      * intros _. apply (score_gt_total_trans _ (score b)); auto.
        -- apply comparable_opp. eapply Hcmp; eauto. eapply nth_error_In; eauto.
        -- apply comparable_opp. eapply Hcmp; eauto. eapply nth_error_In; eauto.
    + destruct H as (_ & Hnone). apply nth_error_In in Hj.
      rewrite (Hnone _ Hj) in Hq. discriminate.
  - rewrite Hp in Hq. inversion Hq; subst s'.
    split; [apply score_gt_irrefl|lia].
Qed.

Lemma solve_loop_best (pickups : list Event) :
  forall seen best_solution best_score r,
    (forall q t, In q (seen ++ pickups) ->
                 candidate_of q = Returns (Some t) ->
                 comparable (sol_route_length t)) ->
    best seen best_solution best_score ->
    solve_loop fuel deliveries pickups vehicle_capacity
      best_solution best_score = Returns r ->
    exists best_score', best (seen ++ pickups) r best_score'.
Proof.
  induction pickups as [|p pickups IH];
    intros seen best_solution best_score r Hcmp Hb H.
  - cbn in H. inversion H; subst. rewrite app_nil_r. eauto.
  - rewrite solve_loop_step in H.
    replace (seen ++ p :: pickups) with ((seen ++ [p]) ++ pickups) in *
      by (now rewrite <- app_assoc).
    assert (Hcmp' : forall q t, In q seen ->
                      candidate_of q = Returns (Some t) ->
                      comparable (sol_route_length t)).
    { intros q t Hq. apply Hcmp. rewrite <- app_assoc. apply in_or_app. now left. }
    destruct (candidate_of p) as [[s|]| |] eqn:E; try discriminate.
    + destruct (score_gt (score s) best_score) eqn:G.
      * eapply IH; [exact Hcmp| |exact H]. eapply best_take; eauto.
      * eapply IH; [exact Hcmp| |exact H]. eapply best_keep; eauto.
    + eapply IH; [exact Hcmp| |exact H]. now apply best_skip.
Qed.

(** Without any assumption on the lengths: what [solve] returns when no
    pickup passes validation, and when it returns nothing. *)
Lemma solve_loop_none (pickups : list Event)
    (best_solution : option Solution) (best_score : Z * float) :
  (forall p, In p pickups -> candidate_of p = Returns None) ->
  solve_loop fuel deliveries pickups vehicle_capacity best_solution best_score
    = Returns best_solution.
Proof.
  induction pickups as [|p pickups IH]; intros H; [reflexivity|].
  rewrite solve_loop_step, (H p) by now left.
  apply IH. intros q Hq. apply H. now right.
Qed.

Lemma solve_loop_some (pickups : list Event) :
  forall best_solution best_score r,
    solve_loop fuel deliveries pickups vehicle_capacity best_solution best_score
      = Returns r ->
    (forall p, In p pickups -> exists o, candidate_of p = Returns o) /\
    (r = None ->
     best_solution = None /\
     (best_score = ((-1)%Z, infinity) ->
      forall p, In p pickups -> candidate_of p = Returns None)).
Proof.
  induction pickups as [|p pickups IH]; intros best_solution best_score r H.
  - cbn in H. inversion H; subst. split; [intros p []|].
    intros ->. split; [reflexivity|]. intros _ p [].
  - rewrite solve_loop_step in H.
    destruct (candidate_of p) as [[s|]| |] eqn:E; try discriminate.
    + destruct (score_gt (score s) best_score) eqn:G.
      * apply IH in H. destruct H as (Hret & Hnone). split.
        -- intros q [<- | Hq]; eauto.
        -- intros Hr. destruct (Hnone Hr) as [N _]. discriminate N.
      * apply IH in H. destruct H as (Hret & Hnone). split.
        -- intros q [<- | Hq]; eauto.
        -- intros Hr. destruct (Hnone Hr) as [N K]. split; [exact N|].
           intros ->. apply candidate_beats_nothing in E. congruence.
    + apply IH in H. destruct H as (Hret & Hnone). split.
      * intros q [<- | Hq]; eauto.
      * intros Hr. destruct (Hnone Hr) as [N K]. split; [exact N|].
        intros Hs q [<- | Hq]; auto.
Qed.

Lemma solve_loop_returns (pickups : list Event) :
  forall best_solution best_score,
    (forall p, In p pickups -> exists o, candidate_of p = Returns o) ->
    exists r,
      solve_loop fuel deliveries pickups vehicle_capacity
        best_solution best_score = Returns r.
Proof.
  induction pickups as [|p pickups IH]; intros best_solution best_score H.
  - now exists best_solution.
  - rewrite solve_loop_step. destruct (H p (or_introl eq_refl)) as (o & ->).
    destruct o as [s|]; [destruct (score_gt (score s) best_score)|];
      apply IH; intros q Hq; apply H; now right.
Qed.

End Solver.

(** C6: when [solve] returns a solution, it is the solution of a pickup
    candidate that passed validation; no candidate that passed validation has
    a greater score, by more deliveries first and a shorter route on equal
    counts, and every candidate earlier in the input that passed validation
    has a strictly smaller score, so that the earliest pickup wins a tie.
    The route lengths of the candidates are taken to be numbers. *)
Theorem solve_returns_best_candidate
    (fuel : nat) (deliveries pickups : list Event) (vehicle_capacity : float)
    (sol : Solution) :
  solve fuel deliveries pickups vehicle_capacity = Returns (Some sol) ->
  (forall p s, In p pickups ->
     candidate fuel deliveries vehicle_capacity p = Returns (Some s) ->
     comparable (sol_route_length s)) ->
  (exists k pickup,
      nth_error pickups k = Some pickup /\
      candidate fuel deliveries vehicle_capacity pickup = Returns (Some sol) /\
      forall j p s,
        nth_error pickups j = Some p ->
        candidate fuel deliveries vehicle_capacity p = Returns (Some s) ->
        score_gt (score s) (score sol) = false /\
        ((j < k)%nat -> score_gt (score sol) (score s) = true)) /\
  (forall a b : Solution,
      score_gt (score a) (score b) = true <->
      (sol_num_deliveries b < sol_num_deliveries a)%Z \/
      (sol_num_deliveries a = sol_num_deliveries b /\
       (sol_route_length a <? sol_route_length b) = true)).
Proof.
  intros H Hcmp. split; [|apply score_gt_meaning].
  unfold solve in H.
  destruct (solve_loop_best fuel deliveries vehicle_capacity pickups
              [] None ((-1)%Z, infinity) (Some sol)) as (sc & Hs & Hbest);
    [exact Hcmp| |exact H|exact Hbest].
  split; [reflexivity|]. intros p [].
Qed.

Lemma solve_returns_best_candidate_witness :
  (exists k pickup,
      nth_error Demo.pickups k = Some pickup /\
      candidate 10 Demo.deliveries 8 pickup = Returns (Some demo_solution) /\
      forall j p s,
        nth_error Demo.pickups j = Some p ->
        candidate 10 Demo.deliveries 8 p = Returns (Some s) ->
        score_gt (score s) (score demo_solution) = false /\
        ((j < k)%nat -> score_gt (score demo_solution) (score s) = true)) /\
  (forall a b : Solution,
      score_gt (score a) (score b) = true <->
      (sol_num_deliveries b < sol_num_deliveries a)%Z \/
      (sol_num_deliveries a = sol_num_deliveries b /\
       (sol_route_length a <? sol_route_length b) = true)).
Proof.
  apply (solve_returns_best_candidate 10 Demo.deliveries Demo.pickups 8
           demo_solution).
  - vm_compute. reflexivity.
  - intros p s Hp. cbn in Hp.
    destruct Hp as [<- | [<- | [<- | []]]]; vm_compute; intros Hs;
      inversion Hs; reflexivity.
Defined.

(** C7 fails on the code: with an empty delivery list no pickup candidate
    yields a feasible route, and yet [solve] does not return the empty
    value: the first candidate raises [TypeError]. *)
Theorem solve_no_candidate_no_result (fuel : nat) :
  (forall p s, In p Demo.pickups -> candidate fuel [] 8 p <> Returns (Some s)) /\
  solve fuel [] Demo.pickups 8 <> Returns None /\
  solve fuel [] Demo.pickups 8 = Raises TypeError.
Proof.
  split; [|split].
  - intros p s _. unfold candidate. cbn. discriminate.
  - discriminate.
  - reflexivity.
Qed.

(** X1: whenever [solve] returns, it returns the empty value exactly when no
    pickup candidate passed validation; it returns the empty value when
    there is no pickup, when the budget is negative and when every
    candidate's route fails validation, and it returns whenever every
    candidate is evaluated to its end. *)
Theorem solve_empty_iff_no_candidate
    (fuel : nat) (deliveries pickups : list Event) (vehicle_capacity : float) :
  (forall r,
      solve fuel deliveries pickups vehicle_capacity = Returns r ->
      (r = None <->
       forall p, In p pickups ->
            candidate fuel deliveries vehicle_capacity p = Returns None)) /\
  solve fuel deliveries [] vehicle_capacity = Returns None /\
  ((vehicle_capacity <? 0) = true ->
   solve fuel deliveries pickups vehicle_capacity = Returns None) /\
  ((forall p, In p pickups ->
       candidate fuel deliveries vehicle_capacity p = Returns None) ->
   solve fuel deliveries pickups vehicle_capacity = Returns None) /\
  ((forall p, In p pickups ->
       exists o, candidate fuel deliveries vehicle_capacity p = Returns o) <->
   exists r, solve fuel deliveries pickups vehicle_capacity = Returns r).
Proof.
  unfold solve. split; [|split; [reflexivity|split; [|split]]].
  - intros r H. split.
    + intros ->. apply solve_loop_some in H. destruct H as (_ & Hn).
      destruct (Hn eq_refl) as (_ & K). now apply K.
    + intros Hn. rewrite solve_loop_none in H by exact Hn. now inversion H.
  - intros Hv. apply solve_loop_none. intros p _. unfold candidate.
    now rewrite Hv.
  - apply solve_loop_none.
  - split; [apply solve_loop_returns|].
    intros (r & H). now apply solve_loop_some in H.
Qed.

Lemma solve_empty_iff_no_candidate_witness :
  solve 10 Demo.deliveries Demo.pickups (-1) = Returns None.
Proof.
  apply (proj1 (proj2 (proj2 (solve_empty_iff_no_candidate
                                10 Demo.deliveries Demo.pickups (-1))))).
  reflexivity.
Defined.

(** ** Further properties of the code *)

(** *** 2-opt *)

Lemma replace_if_shorter_sticky (st : two_opt_state) (p : nat * nat) :
  snd st = true -> snd (replace_if_shorter st p) = true.
Proof.
  destruct st as [[r l] imp]. unfold replace_if_shorter. cbn [snd].
  intros ->. now destruct (_ <? l).
Qed.

Lemma fold_replace_sticky (pairs : list (nat * nat)) (st : two_opt_state) :
  snd st = true -> snd (fold_left replace_if_shorter pairs st) = true.
Proof.
  revert st. induction pairs as [|p pairs IH]; intros st H; cbn; [exact H|].
  apply IH, replace_if_shorter_sticky, H.
Qed.

(** A scan that ends with [improved] unset has found no shorter reversal. *)
Lemma fold_replace_quiet (pairs : list (nat * nat)) (r r' : list Event)
    (l l' : float) :
  fold_left replace_if_shorter pairs (r, l, false) = (r', l', false) ->
  forall p, In p pairs ->
       (route_length (reverse_segment (fst p) (snd p) r) <? l) = false.
Proof.
  induction pairs as [|q pairs IH]; intros H p Hp; [destruct Hp|].
  cbn [fold_left] in H. unfold replace_if_shorter at 2 in H.
  destruct (route_length (reverse_segment (fst q) (snd q) r) <? l) eqn:E.
  - pose proof (fold_replace_sticky pairs
                  (reverse_segment (fst q) (snd q) r,
                   route_length (reverse_segment (fst q) (snd q) r), true)
                  eq_refl) as S.
    rewrite H in S. discriminate S.
  - destruct Hp as [<- | Hp]; [exact E|now apply IH].
Qed.

Lemma continue_loop_final (fuel : nat) :
  forall best_route r,
    continue_loop fuel best_route (route_length best_route) = Returns r ->
    continue_pass r (route_length r) = (r, route_length r, false).
Proof.
  induction fuel as [|fuel IH]; intros best_route r H;
    cbn [continue_loop] in H; [discriminate|].
  pose proof (continue_pass_inv best_route) as Hinv.
  destruct (continue_pass best_route (route_length best_route))
    as [[r1 l1] imp] eqn:E. unfold pass_inv in Hinv.
  destruct Hinv as (_ & -> & Hi). destruct imp.
  - now apply (IH r1).
  - inversion H; subst. destruct Hi as [-> _]. exact E.
Qed.

Lemma scan_pairs_short (n : nat) : (n <= 4)%nat -> scan_pairs n = [].
Proof.
  intros Hn. destruct (scan_pairs n) as [|[i j] l] eqn:E; [reflexivity|].
  assert (H : In (i, j) (scan_pairs n)) by (rewrite E; now left).
  apply in_scan_pairs in H. lia.
Qed.

(** X2: a route [two_opt] returns is a reordering of its input with the
    first and the last stop in place, and it is a local optimum: reversing
    any sub-segment [r[i..j)] with [1 <= i], [i + 2 <= j <= len - 2] does not
    make it strictly shorter.  A route of at most four stops comes back as
    it is. *)
Theorem two_opt_local_optimum (fuel : nat) (route r : list Event) :
  two_opt fuel route = Returns r ->
  Permutation r route /\
  (forall a z stops, route = a :: stops ++ [z] ->
     exists stops', r = a :: stops' ++ [z] /\ Permutation stops' stops) /\
  (forall i j, (1 <= i /\ i + 2 <= j /\ j + 2 <= List.length r)%nat ->
     (route_length (reverse_segment i j r) <? route_length r) = false) /\
  ((List.length route <= 4)%nat -> r = route).
Proof.
  unfold two_opt. rewrite two_opt_loop_continue. intros H.
  assert (Hp : Permutation r route).
  { destruct route as [|a route].
    - destruct fuel; [discriminate|]. cbn in H. now inversion H.
    - destruct (@exists_last _ (a :: route)) as (m & z & E); [discriminate|].
      destruct m as [|a' m].
      + cbn in E. injection E as Ea Er. subst z route.
        destruct fuel; [discriminate|]. cbn in H. now inversion H.
      + cbn in E. injection E as Ea Er. subst a' route.
        apply (continue_loop_keeps a z (List.length m) (a :: m ++ [z])) in H;
          [|reflexivity|now exists m].
        apply H. }
  split; [exact Hp|]. split; [|split].
  - intros a z stops ->.
    apply (continue_loop_keeps a z (List.length stops) (a :: stops ++ [z])) in H;
      [|reflexivity|now exists stops].
    destruct H as (_ & stops' & -> & _). exists stops'. split; [reflexivity|].
    now apply Permutation_cons_inv, Permutation_app_inv_r in Hp.
  - intros i j Hij. apply continue_loop_final in H.
    unfold continue_pass in H.
    apply (fold_replace_quiet _ _ _ _ _ H (i, j)).
    now apply in_scan_pairs.
  - intros Hn. destruct fuel; [discriminate|]. cbn [continue_loop] in H.
    unfold continue_pass in H. rewrite scan_pairs_short in H by exact Hn.
    cbn in H. now inversion H.
Qed.

Lemma two_opt_local_optimum_witness :
  Permutation [DEPOT; Line.E; Line.D; Line.C; Line.B; Line.A; DEPOT]
    Line.route.
Proof.
  apply (two_opt_local_optimum 4 Line.route). vm_compute. reflexivity.
Defined.

(** *** Route construction *)

Lemma min_scan_least (key : Event -> float) (l : list Event) :
  forall best best_at at_ k e,
    min_scan key best best_at at_ l = (k, e) ->
    (e = best \/ (key e <? key best) = true) /\
    forall d, In d l -> (key d <? key e) = false.
Proof.
  induction l as [|d l IH]; intros best best_at at_ k e H; cbn in H.
  - inversion H; subst. split; [now left|intros d []].
  - destruct (key d <? key best) eqn:E; apply IH in H; destruct H as (Hb & Hl).
    + split.
      * right. destruct Hb as [-> | Hb]; [exact E|eapply ltb_trans; eauto].
      * intros d' [<- | Hd']; [|now apply Hl].
        destruct Hb as [-> | Hb]; [apply ltb_irrefl|now apply ltb_asym].
    + split; [exact Hb|].
      intros d' [<- | Hd']; [|now apply Hl].
      destruct Hb as [-> | Hb]; [exact E|].
      destruct (key d <? key e) eqn:E'; [|reflexivity].
      rewrite (ltb_trans _ _ _ E' Hb) in E. discriminate E.
Qed.

Lemma min_by_least (key : Event -> float) (l : list Event) (i : nat)
    (e : Event) :
  min_by key l = Some (i, e) ->
  forall d, In d l -> (key d <? key e) = false.
Proof.
  destruct l as [|d0 l]; cbn; [discriminate|]. intros H. inversion H as [H'].
  apply min_scan_least in H'. destruct H' as (Hb & Hl).
  intros d [<- | Hd]; [|now apply Hl].
  destruct Hb as [-> | Hb]; [apply ltb_irrefl|now apply ltb_asym].
Qed.

Lemma nearest_neighbor_loop_chain (n : nat) :
  forall route current unvisited,
    List.length unvisited = n ->
    exists stops,
      nearest_neighbor_loop n route current unvisited = route ++ stops /\
      Permutation stops unvisited /\
      nearest_chain current stops.
Proof.
  induction n as [|n IH]; intros route current unvisited Hn.
  - destruct unvisited; [|discriminate]. exists []. cbn.
    now rewrite app_nil_r.
  - cbn [nearest_neighbor_loop].
    destruct (min_by (fun d => distance current d) unvisited) as [[i e]|] eqn:E.
    + pose proof (min_by_least _ _ _ _ E) as Hleast.
      apply min_by_nth in E. pose proof (remove_at_perm _ _ _ E) as Hp.
      destruct (IH (route ++ [e]) e (remove_at i unvisited))
        as (stops & -> & Hs & Hc).
      { apply Permutation_length in Hp. cbn in Hp. lia. }
      exists (e :: stops). rewrite <- app_assoc. split; [reflexivity|].
      split; [now rewrite Hs|]. cbn. split; [|exact Hc].
      intros d Hd. apply Hleast.
      apply (Permutation_in _ Hp). right. now apply (Permutation_in _ Hs).
    + destruct unvisited; [discriminate Hn|discriminate E].
Qed.

(** X3: for a depot and deliveries within range of each other,
    [nearest_neighbor_route] returns the depot followed by the deliveries,
    each exactly as often as it was given, in nearest-neighbour order: from
    the depot and from every stop on, no stop still to come is strictly
    nearer than the next one. *)
Theorem nearest_neighbor_route_nearest_first (deliveries : list Event) :
  no_overflow (DEPOT :: deliveries) ->
  exists stops,
    nearest_neighbor_route deliveries = DEPOT :: stops /\
    Permutation stops deliveries /\
    nearest_chain DEPOT stops.
Proof.
  intros _.
  destruct (nearest_neighbor_loop_chain (List.length deliveries)
              [DEPOT] DEPOT deliveries eq_refl) as (stops & E & Hp & Hc).
  now exists stops.
Qed.

Lemma nearest_neighbor_route_nearest_first_witness :
  exists stops,
    nearest_neighbor_route Demo.deliveries = DEPOT :: stops /\
    Permutation stops Demo.deliveries /\
    nearest_chain DEPOT stops.
Proof.
  apply (nearest_neighbor_route_nearest_first Demo.deliveries).
  apply no_overflow_checked. repeat constructor.
Defined.

Lemma insertion_cost_at (pickup prev cur : Event) (pre rest : list Event) :
  insertion_cost pickup (pre ++ prev :: cur :: rest) (S (List.length pre))
  = distance prev pickup + distance pickup cur - distance prev cur.
Proof.
  unfold insertion_cost. cbn [Nat.sub]. rewrite Nat.sub_0_r.
  rewrite !app_nth2 by lia. rewrite Nat.sub_diag.
  replace (S (List.length pre) - List.length pre)%nat with 1%nat by lia.
  reflexivity.
Qed.

Lemma insertion_inv_step (pickup : Event) (route : list Event) (m : nat)
    (best_position : option nat) (best_increase : float) :
  insertion_inv pickup route m best_position best_increase ->
  let increase := insertion_cost pickup route (S m) in
  insertion_inv pickup route (S m)
    (if increase <? best_increase then Some (S m) else best_position)
    (if increase <? best_increase then increase else best_increase).
Proof.
  intros Hinv increase. unfold insertion_inv in *.
  destruct (increase <? best_increase) eqn:E.
  - split; [lia|]. split; [reflexivity|].
    destruct best_position as [q|].
    + destruct Hinv as (Hq & -> & Hfin & Hmin). split.
      * eapply ltb_trans; eauto.
      * intros i Hi. destruct (Nat.eq_dec i (S m)) as [-> | Hne];
          [apply ltb_irrefl|].
        destruct (insertion_cost pickup route i <? increase) eqn:E';
          [|exact E'].
        pose proof (ltb_trans _ _ _ E' E) as T.
        rewrite Hmin in T by lia. discriminate T.
    + destruct Hinv as (-> & Hnone). split; [exact E|].
      intros i Hi. destruct (Nat.eq_dec i (S m)) as [-> | Hne];
        [apply ltb_irrefl|].
      destruct (insertion_cost pickup route i <? increase) eqn:E';
        [|exact E'].
      pose proof (ltb_trans _ _ _ E' E) as T.
      rewrite Hnone in T by lia. discriminate T.
  - destruct best_position as [q|].
    + destruct Hinv as (Hq & -> & Hfin & Hmin).
      split; [lia|]. split; [reflexivity|]. split; [exact Hfin|].
      intros i Hi. destruct (Nat.eq_dec i (S m)) as [-> | Hne];
        [exact E|apply Hmin; lia].
    + destruct Hinv as (-> & Hnone). split; [reflexivity|].
      intros i Hi. destruct (Nat.eq_dec i (S m)) as [-> | Hne];
        [exact E|apply Hnone; lia].
Qed.

Lemma best_insertion_inv (pickup : Event) (route : list Event) :
  forall rest pre prev best_position best_increase,
    route = pre ++ prev :: rest ->
    insertion_inv pickup route (List.length pre) best_position best_increase ->
    exists best_increase',
      insertion_inv pickup route (List.length route - 1)
        (best_insertion pickup (S (List.length pre)) prev rest
           best_position best_increase)
        best_increase'.
Proof.
  induction rest as [|cur rest IH];
    intros pre prev best_position best_increase Hr Hinv.
  - cbn. exists best_increase.
    replace (List.length route - 1)%nat with (List.length pre); [exact Hinv|].
    rewrite Hr, length_app. cbn. lia.
  - cbn [best_insertion].
    pose proof (insertion_inv_step _ _ _ _ _ Hinv) as Hstep. cbn zeta in Hstep.
    rewrite Hr, insertion_cost_at, <- Hr in Hstep.
    assert (Hr' : route = (pre ++ [prev]) ++ cur :: rest)
      by (now rewrite <- app_assoc).
    assert (Hlen : List.length (pre ++ [prev]) = S (List.length pre))
      by (rewrite length_app; cbn; lia).
    destruct (_ <? best_increase);
      rewrite <- Hlen in Hstep |- *; exact (IH _ _ _ _ Hr' Hstep).
Qed.

(** X4: for a pickup and a route whose stops are within range of each
    other, [insert_pickup_best_position] raises [TypeError] exactly when no
    position [1 .. len(route)-1] has an insertion cost below infinity, so on
    every route of fewer than two stops; otherwise it returns the route with
    the pickup put in at such a position, of a cost that no other position
    undercuts.  The pickup is never put first, nor after the last stop. *)
Theorem insert_pickup_best_position_spec (route : list Event) (pickup : Event) :
  no_overflow (pickup :: route) ->
  (insert_pickup_best_position route pickup = Raises TypeError <->
   forall i, (1 <= i < List.length route)%nat ->
        (insertion_cost pickup route i <? infinity) = false) /\
  (forall r, insert_pickup_best_position route pickup = Returns r ->
     exists pos,
       (1 <= pos < List.length route)%nat /\
       r = firstn pos route ++ pickup :: skipn pos route /\
       (insertion_cost pickup route pos <? infinity) = true /\
       forall i, (1 <= i < List.length route)%nat ->
            (insertion_cost pickup route i <? insertion_cost pickup route pos)
            = false).
Proof.
  intros _. unfold insert_pickup_best_position.
  destruct route as [|first rest].
  - split; [|discriminate].
    split; [|reflexivity]. intros _ i Hi. cbn in Hi. lia.
  - destruct (best_insertion_inv pickup (first :: rest) rest [] first None
                infinity eq_refl) as (bi & Hinv).
    { cbn. split; [reflexivity|]. intros i Hi. lia. }
    cbn [List.length] in Hinv. rewrite Nat.sub_succ, Nat.sub_0_r in Hinv.
    cbn [List.length].
    destruct (best_insertion pickup 1 first rest None infinity) as [pos|];
      unfold insertion_inv in Hinv.
    + destruct Hinv as (Hpos & _ & Hfin & Hmin).
      split; [|intros r H; inversion H; subst].
      * split; [discriminate|]. intros H. rewrite H in Hfin by lia.
        discriminate Hfin.
      * exists pos. split; [lia|]. split; [reflexivity|]. split; [exact Hfin|].
        intros i Hi. apply Hmin. lia.
    + destruct Hinv as (_ & Hnone).
      split; [|discriminate].
      split; [|reflexivity]. intros _ i Hi. apply Hnone. lia.
Qed.

Lemma insert_pickup_best_position_spec_witness :
  insert_pickup_best_position [DEPOT] Line.C = Raises TypeError <->
  forall i, (1 <= i < 1)%nat ->
       (insertion_cost Line.C [DEPOT] i <? infinity) = false.
Proof.
  apply (insert_pickup_best_position_spec [DEPOT] Line.C).
  apply no_overflow_checked. repeat constructor.
Defined.

(** X5: with no delivery [build_route] raises [TypeError], whatever the
    pickup; with a single delivery within range of the depot and of the
    pickup it returns depot, pickup, delivery, depot, the pickup always
    before the delivery, unless the insertion cost is not below infinity,
    when it raises [TypeError] too. *)
Theorem build_route_few_deliveries (fuel : nat) (pickup : Event) :
  build_route fuel [] pickup = Raises TypeError /\
  forall d,
    no_overflow [DEPOT; pickup; d] ->
    build_route (S fuel) [d] pickup =
      if distance DEPOT pickup + distance pickup d - distance DEPOT d
         <? infinity
      then Returns [DEPOT; pickup; d; DEPOT]
      else Raises TypeError.
Proof.
  split; [reflexivity|]. intros d _. unfold build_route.
  change (nearest_neighbor_route [d]) with [DEPOT; d].
  unfold insert_pickup_best_position. cbn [best_insertion].
  destruct (_ <? infinity); [|reflexivity].
  cbn [bind list_insert firstn skipn app]. apply two_opt_four_stops.
Qed.

Lemma build_route_few_deliveries_witness :
  build_route 1 [Line.D] Line.C = Returns [DEPOT; Line.C; Line.D; DEPOT].
Proof.
  apply (proj2 (build_route_few_deliveries 0 Line.C) Line.D).
  apply no_overflow_checked. repeat constructor.
Defined.

(** The left fold of [route_length]: a stop appended to a route adds the
    distance from the last stop to the total. *)
Lemma route_length_from_snoc (route : list Event) :
  forall total a e,
    route_length_from total ((a :: route) ++ [e])
    = route_length_from total (a :: route)
      + distance (last (a :: route) DEPOT) e.
Proof.
  induction route as [|b route IH]; intros total a e; [reflexivity|].
  change (route_length_from total ((a :: b :: route) ++ [e]))
    with (route_length_from (total + distance a b) ((b :: route) ++ [e])).
  rewrite IH. reflexivity.
Qed.

(** X6: appending a stop to a non-empty route adds exactly the distance
    from its last stop, as a float: [route_length] sums from left to right.
    So the depot that closes a tour adds the way back from the last stop. *)
Theorem route_length_append (route : list Event) (e : Event) :
  route <> [] ->
  route_length (route ++ [e])
  = route_length route + distance (last route DEPOT) e.
Proof.
  destruct route as [|a route]; [congruence|]. intros _.
  apply route_length_from_snoc.
Qed.

Lemma route_length_append_witness :
  route_length ([DEPOT; Line.C; Line.D] ++ [DEPOT])
  = route_length [DEPOT; Line.C; Line.D] + distance Line.D DEPOT.
Proof. apply (route_length_append [DEPOT; Line.C; Line.D] DEPOT). discriminate. Defined.

(** *** Capacity feasibility *)

Lemma load_step_other (load : float) (e : Event) :
  moves_load e = false -> load_step load e = load.
Proof.
  unfold moves_load, load_step, is_type. intros H.
  apply orb_false_iff in H. destruct H as [-> ->]. reflexivity.
Qed.

Lemma feasible_walk_ignores (route : list Event) (vehicle_capacity : float) :
  forall load,
    (vehicle_capacity <? load) = false ->
    feasible_walk (filter moves_load route) load vehicle_capacity
    = feasible_walk route load vehicle_capacity.
Proof.
  induction route as [|e route IH]; intros load Hl; [reflexivity|].
  cbn [filter]. destruct (moves_load e) eqn:E; cbn [feasible_walk].
  - destruct (vehicle_capacity <? load_step load e) eqn:E'; [reflexivity|].
    now apply IH.
  - rewrite (load_step_other _ _ E), Hl. now apply IH.
Qed.

Lemma total_delivery_load_ignores (route : list Event) :
  total_delivery_load (filter moves_load route) = total_delivery_load route.
Proof.
  unfold total_delivery_load. f_equal.
  induction route as [|e route IH]; [reflexivity|]. cbn [filter].
  unfold moves_load at 1, is_type at 2.
  destruct (String.eqb (type e) "delivery") eqn:E; cbn [orb].
  - cbn [filter]. unfold is_type at 1. rewrite E. now f_equal.
  - destruct (String.eqb (type e) "pickup"); [|exact IH].
    cbn [filter]. unfold is_type at 1. now rewrite E.
Qed.

(** X7: the verdict of [is_capacity_feasible] does not depend on the stops
    that are neither deliveries nor pickups (the depot, at either end or in
    between): leaving them out of the route gives the same verdict. *)
Theorem is_capacity_feasible_ignores_other_stops
    (route : list Event) (vehicle_capacity : float) :
  is_capacity_feasible (filter moves_load route) vehicle_capacity
  = is_capacity_feasible route vehicle_capacity.
Proof.
  unfold is_capacity_feasible. rewrite total_delivery_load_ignores.
  destruct (vehicle_capacity <? total_delivery_load route) eqn:E;
    [reflexivity|].
  now apply feasible_walk_ignores.
Qed.

Lemma within_larger_capacity (load capacity capacity' : float) :
  (capacity <=? capacity') = true ->
  (capacity <? load) = false -> (capacity' <? load) = false.
Proof.
  intros Hle H. destruct (capacity' <? load) eqn:E; [|reflexivity].
  rewrite (leb_ltb_trans _ _ _ Hle E) in H. discriminate H.
Qed.

Lemma feasible_walk_monotone (route : list Event)
    (capacity capacity' : float) :
  (capacity <=? capacity') = true ->
  forall load,
    feasible_walk route load capacity = true ->
    feasible_walk route load capacity' = true.
Proof.
  intros Hle. induction route as [|e route IH]; intros load; [reflexivity|].
  cbn [feasible_walk].
  destruct (capacity <? load_step load e) eqn:E; [discriminate|].
  rewrite (within_larger_capacity _ _ _ Hle E). apply IH.
Qed.

(** X8: a route that is feasible for a vehicle capacity is feasible for
    every capacity that is at least as large. *)
Theorem is_capacity_feasible_monotone
    (route : list Event) (capacity capacity' : float) :
  (capacity <=? capacity') = true ->
  is_capacity_feasible route capacity = true ->
  is_capacity_feasible route capacity' = true.
Proof.
  intros Hle. unfold is_capacity_feasible.
  destruct (capacity <? total_delivery_load route) eqn:E; [discriminate|].
  rewrite (within_larger_capacity _ _ _ Hle E).
  now apply feasible_walk_monotone.
Qed.

Lemma is_capacity_feasible_monotone_witness :
  is_capacity_feasible demo_route 9.5 = true.
Proof.
  apply (is_capacity_feasible_monotone demo_route 8 9.5); reflexivity.
Defined.

(** *** Delivery selection *)

Lemma subsequence_refl (l : list Event) : subsequence l l.
Proof. induction l; constructor; auto. Qed.

Lemma subsequence_in (l l' : list Event) :
  subsequence l l' -> forall e, In e l -> In e l'.
Proof.
  induction 1 as [|e l l' _ IH|e l l' _ IH]; intros d Hd; cbn in *; intuition.
Qed.

Lemma subsequence_length (l l' : list Event) :
  subsequence l l' -> (List.length l <= List.length l')%nat.
Proof. induction 1; cbn; lia. Qed.

Lemma subsequence_sorted (R : Event -> Event -> Prop) (l l' : list Event) :
  subsequence l l' -> StronglySorted R l' -> StronglySorted R l.
Proof.
  induction 1 as [|e l l' Hs IH|e l l' Hs IH]; intros H;
    [constructor| |]; inversion H as [|? ? Hl' He]; subst.
  - constructor; [now apply IH|].
    apply Forall_forall. intros d Hd. rewrite Forall_forall in He.
    apply He. eapply subsequence_in; eauto.
  - now apply IH.
Qed.

Lemma greedy_subsequence (s : list Event) (limit : float) :
  forall total, subsequence (greedy_accept s total limit) s.
Proof.
  induction s as [|d s IH]; intros total; cbn; [constructor|].
  destruct (total + capacity d <=? limit); constructor; apply IH.
Qed.

Lemma greedy_idempotent (s : list Event) (limit : float) :
  forall total,
    greedy_accept (greedy_accept s total limit) total limit
    = greedy_accept s total limit.
Proof.
  induction s as [|d s IH]; intros total; cbn; [reflexivity|].
  destruct (total + capacity d <=? limit) eqn:E; [|apply IH].
  cbn. rewrite E. f_equal. apply IH.
Qed.

Lemma lex_le_not_key_lt (a b : float * float) :
  lex_le a b = true -> key_lt b a = false.
Proof.
  destruct a as [a1 a2], b as [b1 b2]. unfold lex_le, key_lt; cbn.
  rewrite orb_true_iff, andb_true_iff. intros [H | [H1 H2]].
  - rewrite eqb_leb. destruct (b1 <=? a1) eqn:E.
    + apply leb_not_ltb in E. congruence.
    + cbn. now apply ltb_asym.
  - rewrite eqb_sym, H1. now apply leb_not_ltb.
Qed.

Lemma sorted_insert_last (d : Event) (l : list Event) :
  Forall (fun e => key_ascending e d) l -> sorted_insert d l = l ++ [d].
Proof.
  induction 1 as [|e l He _ IH]; cbn; [reflexivity|].
  rewrite (lex_le_not_key_lt _ _ He). now f_equal.
Qed.

(** Sorting a list that is in ascending order gives it back. *)
Lemma sorted_fold_of_sorted (l : list Event) :
  forall acc,
    StronglySorted key_ascending l ->
    Forall (fun a => Forall (key_ascending a) l) acc ->
    fold_left (fun acc d => sorted_insert d acc) l acc = acc ++ l.
Proof.
  induction l as [|d l IH]; intros acc Hs Hacc; cbn.
  - now rewrite app_nil_r.
  - inversion Hs as [|? ? Hl Hd]; subst.
    rewrite sorted_insert_last.
    + rewrite IH; [now rewrite <- app_assoc|exact Hl|].
      apply Forall_app. split.
      * eapply Forall_impl; [|exact Hacc]. intros a Ha. now inversion Ha.
      * now constructor.
    + eapply Forall_impl; [|exact Hacc]. intros a Ha. now inversion Ha.
Qed.

(** X9: the selection is a subsequence of the sorted deliveries: every
    selected stop is one of the deliveries given, none is selected more often
    than it was given, and the selection is in ascending order of (capacity,
    distance from the depot).  Selecting again from the selection, under the
    same limit, gives the selection back.  The deliveries are taken to be
    within range of the depot, and the capacities and the depot distances
    to be numbers. *)
Theorem select_deliveries_subsequence_idempotent
    (deliveries : list Event) (capacity_limit : float) :
  Forall (near DEPOT) deliveries ->
  Forall keys_comparable deliveries ->
  let selected := select_deliveries deliveries capacity_limit in
  subsequence selected (sorted deliveries) /\
  (forall d, In d selected -> In d deliveries) /\
  (List.length selected <= List.length deliveries)%nat /\
  StronglySorted key_ascending selected /\
  select_deliveries selected capacity_limit = selected.
Proof.
  intros _ Hc selected.
  assert (E : selected = greedy_accept (sorted deliveries) 0 capacity_limit).
  { unfold selected, select_deliveries. now rewrite select_loop_greedy. }
  assert (Hsub : subsequence selected (sorted deliveries)).
  { rewrite E. apply greedy_subsequence. }
  assert (Hsorted : StronglySorted key_ascending selected).
  { eapply subsequence_sorted; [exact Hsub|].
    apply sorted_fold_ascending; auto; constructor. }
  split; [exact Hsub|]. split; [|split; [|split; [exact Hsorted|]]].
  - intros d Hd. apply (Permutation_in _ (sorted_perm deliveries)).
    eapply subsequence_in; eauto.
  - rewrite <- (Permutation_length (sorted_perm deliveries)).
    now apply subsequence_length.
  - unfold select_deliveries at 1. rewrite select_loop_greedy. cbn [app].
    unfold sorted. rewrite sorted_fold_of_sorted by (auto; constructor).
    cbn [app]. rewrite E. apply greedy_idempotent.
Qed.

Lemma select_deliveries_subsequence_idempotent_witness :
  select_deliveries (select_deliveries Demo.deliveries 8) 8
  = select_deliveries Demo.deliveries 8.
Proof.
  apply (select_deliveries_subsequence_idempotent Demo.deliveries 8);
    repeat constructor.
Defined.

(** *** The solver *)

Lemma solve_loop_origin (fuel : nat) (deliveries : list Event)
    (vehicle_capacity : float) (pickups : list Event) :
  forall best_solution best_score sol,
    solve_loop fuel deliveries pickups vehicle_capacity
      best_solution best_score = Returns (Some sol) ->
    best_solution = Some sol \/
    exists p, In p pickups /\
         candidate fuel deliveries vehicle_capacity p = Returns (Some sol).
Proof.
  induction pickups as [|p pickups IH]; intros best_solution best_score sol H.
  - cbn in H. inversion H. now left.
  - rewrite solve_loop_step in H.
    destruct (candidate fuel deliveries vehicle_capacity p)
      as [[s|]| |] eqn:E; try discriminate.
    + destruct (score_gt (score s) best_score); apply IH in H;
        destruct H as [H | (q & Hq & Hc)].
      * inversion H; subst. right. exists p. split; [now left|exact E].
      * right. exists q. split; [now right|exact Hc].
      * now left.
      * right. exists q. split; [now right|exact Hc].
    + apply IH in H. destruct H as [H | (q & Hq & Hc)]; [now left|].
      right. exists q. split; [now right|exact Hc].
Qed.

(** X10: a solution [solve] returns is consistent.  Its pickup is one of
    the pickups given, the vehicle capacity is not negative, its route is the
    one [build_route] makes of the selected deliveries and this pickup (it
    starts and ends at the depot and visits the pickup and the selection in
    between), the route passes [is_capacity_feasible], its length is the
    [route_length] of the route and its delivery count is the size of the
    selection, which does not depend on the pickup. *)
Theorem solve_solution_consistent
    (fuel : nat) (deliveries pickups : list Event) (vehicle_capacity : float)
    (sol : Solution) :
  solve fuel deliveries pickups vehicle_capacity = Returns (Some sol) ->
  let selected := select_deliveries deliveries vehicle_capacity in
  In (sol_pickup_used sol) pickups /\
  (vehicle_capacity <? 0) = false /\
  build_route fuel selected (sol_pickup_used sol) = Returns (sol_route sol) /\
  (exists stops,
      sol_route sol = DEPOT :: stops ++ [DEPOT] /\
      Permutation stops (sol_pickup_used sol :: selected)) /\
  is_capacity_feasible (sol_route sol) vehicle_capacity = true /\
  sol_route_length sol = route_length (sol_route sol) /\
  sol_num_deliveries sol = Z.of_nat (List.length selected).
Proof.
  intros H selected. unfold solve in H. apply solve_loop_origin in H.
  destruct H as [H | (p & Hp & H)]; [discriminate|].
  unfold candidate in H. fold selected in H.
  destruct (vehicle_capacity <? 0); [discriminate|].
  destruct (build_route fuel selected p) as [r| |] eqn:E; cbn [bind] in H;
    try discriminate.
  destruct (is_capacity_feasible r vehicle_capacity) eqn:F; [|discriminate].
  inversion H; subst sol; cbn.
  repeat split; auto. now apply build_route_shape in E.
Qed.

Lemma solve_solution_consistent_witness :
  In (sol_pickup_used demo_solution) Demo.pickups.
Proof.
  apply (solve_solution_consistent 10 Demo.deliveries Demo.pickups 8
           demo_solution).
  vm_compute. reflexivity.
Defined.

Lemma score_gt_asym (a b : Z * float) :
  score_gt a b = true -> score_gt b a = false.
Proof.
  intros H. destruct (score_gt b a) eqn:E; [|reflexivity].
  rewrite <- (score_gt_irrefl a). symmetry. eapply score_gt_trans; eauto.
Qed.

(** Whatever the lengths are, no validated candidate beats what the loop
    ends with. *)
Lemma solve_loop_unbeaten (fuel : nat) (deliveries : list Event)
    (vehicle_capacity : float) (pickups : list Event) :
  forall best_solution best_score sol,
    (forall b, best_solution = Some b -> best_score = score b) ->
    solve_loop fuel deliveries pickups vehicle_capacity
      best_solution best_score = Returns (Some sol) ->
    (score sol = best_score \/ score_gt (score sol) best_score = true) /\
    forall p s, In p pickups ->
      candidate fuel deliveries vehicle_capacity p = Returns (Some s) ->
      score_gt (score s) (score sol) = false.
Proof.
  induction pickups as [|p pickups IH];
    intros best_solution best_score sol Hb H.
  - cbn in H. inversion H as [H']. split; [left; symmetry; now apply Hb|].
    intros p s [].
  - rewrite solve_loop_step in H.
    destruct (candidate fuel deliveries vehicle_capacity p)
      as [[s0|]| |] eqn:E; try discriminate.
    + destruct (score_gt (score s0) best_score) eqn:G.
      * apply IH in H; [|intros b Hs; now inversion Hs].
        destruct H as (Hsol & Hall). split.
        -- right. destruct Hsol as [-> | Hsol]; [exact G|].
           eapply score_gt_trans; eauto.
        -- intros q s [<- | Hq] Hs; [|eauto].
           rewrite E in Hs. inversion Hs; subst s0.
           destruct Hsol as [-> | Hsol];
             [apply score_gt_irrefl|now apply score_gt_asym].
      * apply IH in H; [|exact Hb].
        destruct H as (Hsol & Hall). split; [exact Hsol|].
        intros q s [<- | Hq] Hs; [|eauto].
        rewrite E in Hs. inversion Hs; subst s0.
        destruct Hsol as [-> | Hsol]; [exact G|].
        destruct (score_gt (score s) (score sol)) eqn:G'; [|reflexivity].
        rewrite (score_gt_trans _ _ _ G' Hsol) in G. discriminate G.
    + apply IH in H; [|exact Hb]. destruct H as (Hsol & Hall).
      split; [exact Hsol|].
      intros q s [<- | Hq] Hs; [|eauto]. rewrite E in Hs. discriminate Hs.
Qed.

(** X11: every pickup candidate that passes validation serves the same
    number of deliveries as the solution [solve] returns, and none has a
    strictly shorter route: the returned solution is a shortest of the
    validated candidates (whatever the route lengths are, NaN included). *)
Theorem solve_returns_shortest_validated
    (fuel : nat) (deliveries pickups : list Event) (vehicle_capacity : float)
    (sol : Solution) :
  solve fuel deliveries pickups vehicle_capacity = Returns (Some sol) ->
  forall p s, In p pickups ->
    candidate fuel deliveries vehicle_capacity p = Returns (Some s) ->
    sol_num_deliveries s = sol_num_deliveries sol /\
    (sol_route_length s <? sol_route_length sol) = false.
Proof.
  intros H p s Hp Hs.
  assert (Hn : forall q t,
             candidate fuel deliveries vehicle_capacity q = Returns (Some t) ->
             sol_num_deliveries t
             = Z.of_nat (List.length
                           (select_deliveries deliveries vehicle_capacity))).
  { intros q t Ht. unfold candidate in Ht.
    destruct (vehicle_capacity <? 0); [discriminate|].
    destruct (build_route _ _ _) as [r| |]; cbn [bind] in Ht; try discriminate.
    destruct (is_capacity_feasible _ _); [|discriminate].
    now inversion Ht. }
  pose proof H as H0. unfold solve in H0.
  apply solve_loop_origin in H0.
  destruct H0 as [H0 | (q & _ & Hq)]; [discriminate|].
  assert (En : sol_num_deliveries s = sol_num_deliveries sol)
    by (now rewrite (Hn _ _ Hs), (Hn _ _ Hq)).
  split; [exact En|].
  unfold solve in H. apply solve_loop_unbeaten in H; [|discriminate].
  destruct H as (_ & Hall). specialize (Hall p s Hp Hs).
  unfold score_gt, score in Hall; cbn in Hall.
  rewrite En, Z.eqb_refl, ltb_opp in Hall. exact Hall.
Qed.

Lemma solve_returns_shortest_validated_witness :
  sol_num_deliveries demo_solution = sol_num_deliveries demo_solution /\
  (sol_route_length demo_solution <? sol_route_length demo_solution) = false.
Proof.
  apply (solve_returns_shortest_validated 10 Demo.deliveries Demo.pickups 8
           demo_solution ltac:(vm_compute; reflexivity)
           (mkEvent 4 6 4 "pickup" "P1") demo_solution).
  - now left.
  - vm_compute. reflexivity.
Defined.

Lemma build_route_settles (deliveries : list Event) (pickup : Event) :
  exists fuel o,
    o <> OutOfFuel /\
    forall fuel', (fuel <= fuel')%nat ->
             build_route fuel' deliveries pickup = o.
Proof.
  unfold build_route.
  destruct (insert_pickup_best_position (nearest_neighbor_route deliveries)
              pickup) as [r| |] eqn:E; cbn [bind].
  - destruct (two_opt_terminates (r ++ [DEPOT])) as (fuel & r' & Hr & _).
    exists fuel, (Returns r'). split; [discriminate|exact Hr].
  - exists 0%nat, (Raises e). split; [discriminate|reflexivity].
  - exfalso. revert E. unfold insert_pickup_best_position.
    now destruct (match nearest_neighbor_route deliveries with
                  | [] => None
                  | first :: rest =>
                      best_insertion pickup 1 first rest None infinity
                  end).
Qed.

Lemma solve_loop_settles (deliveries : list Event) (vehicle_capacity : float)
    (pickups : list Event) :
  exists fuel,
    forall fuel' best_solution best_score,
      (fuel <= fuel')%nat ->
      solve_loop fuel' deliveries pickups vehicle_capacity
        best_solution best_score
      = solve_loop fuel deliveries pickups vehicle_capacity
          best_solution best_score /\
      solve_loop fuel deliveries pickups vehicle_capacity
        best_solution best_score <> OutOfFuel.
Proof.
  induction pickups as [|p pickups (f2 & IH)].
  - exists 0%nat. intros fuel' bs bsc _. split; [reflexivity|discriminate].
  - destruct (build_route_settles
                (select_deliveries deliveries vehicle_capacity) p)
      as (f1 & o & Ho & Hf1).
    exists (Nat.max f1 f2). intros fuel' bs bsc Hle.
    assert (Hrest : forall f bs' bsc', (Nat.max f1 f2 <= f)%nat ->
              solve_loop f deliveries pickups vehicle_capacity bs' bsc'
              = solve_loop f2 deliveries pickups vehicle_capacity bs' bsc').
    { intros f bs' bsc' Hf. apply IH. lia. }
    cbn [solve_loop].
    destruct (vehicle_capacity <? 0).
    + rewrite (Hrest fuel'), (Hrest (Nat.max f1 f2)) by lia. split; [reflexivity|]. now apply (IH f2).
    + rewrite (Hf1 fuel') by lia. rewrite (Hf1 (Nat.max f1 f2)) by lia.
      destruct o as [r| |]; cbn [bind]; [|split; [reflexivity|discriminate]|
                                          congruence].
      destruct (negb (is_capacity_feasible r vehicle_capacity)).
      * rewrite (Hrest fuel'), (Hrest (Nat.max f1 f2)) by lia. split; [reflexivity|]. now apply (IH f2).
      * destruct (score_gt _ bsc); rewrite (Hrest fuel'), (Hrest (Nat.max f1 f2)) by lia;
          (split; [reflexivity|]); now apply (IH f2).
Qed.

(** X12: [solve] always comes to an end: for every input there is a number
    of 2-opt passes from which on it gives one and the same outcome, a
    returned result or a raised [TypeError]; the loops never run on. *)
Theorem solve_terminates
    (deliveries pickups : list Event) (vehicle_capacity : float) :
  exists fuel o,
    o <> OutOfFuel /\
    forall fuel', (fuel <= fuel')%nat ->
             solve fuel' deliveries pickups vehicle_capacity = o.
Proof.
  destruct (solve_loop_settles deliveries vehicle_capacity pickups)
    as (fuel & H).
  exists fuel, (solve fuel deliveries pickups vehicle_capacity).
  unfold solve. split.
  - apply (H fuel). lia.
  - intros fuel' Hle. now apply H.
Qed.
